(** * A shallow embedding of the ingestion and query pipeline of [main.py]

    The application is glue code: it walks a Google Docs payload, hands the
    text to langchain's [CharacterTextSplitter], embeds the chunks with a
    sentence-transformers model, stores the vectors in a
    [faiss.IndexFlatL2], and answers a query with the texts at the
    positions that [index.search] returns.

    The development follows the program.  Python values that can raise are
    computed in an error monad ([outcome]); the two module-level
    dictionaries [USER_CREDENTIALS] and [VECTOR_STORE] are finite maps
    inside an explicit application state that every handler receives and
    returns.  The library routines the handlers call are transcribed next
    to them: [LangChain] holds [CharacterTextSplitter.split_text] with its
    helpers, [Faiss] holds [IndexFlatL2] with [add] and [search].  The
    embedding model is a black box and stays a parameter.

    [Faiss] computes distances with exact numbers and the handlers take
    the model as one that always loads.  [FaissFloat] and [Live] are the
    same index and the same query handler without the two
    simplifications: the float32 distance computation is a parameter,
    and so is what loading the model does.  What is stated about the
    order of results is stated there. *)

From Stdlib Require Import ZArith QArith Lia Bool Ascii.
From stdpp Require Import gmap strings list sorting pretty.

Local Open Scope Z_scope.

(* ===================================================================== *)
(** * Part I: definitions                                                 *)
(* ===================================================================== *)

(** ** Python exceptions and the error monad *)

Inductive exn : Type :=
| AttributeError
| TypeError
| KeyError
| IndexError
| AssertionError
| HttpError.

(** [str(e)], up to the message text. *)
Definition str_exn (e : exn) : string :=
  match e with
  | AttributeError => "AttributeError"
  | TypeError => "TypeError"
  | KeyError => "KeyError"
  | IndexError => "IndexError"
  | AssertionError => "AssertionError"
  | HttpError => "HttpError"
  end.

Inductive outcome (A : Type) : Type :=
| Ok (a : A)
| Raise (e : exn).

Arguments Ok {A} a.
Arguments Raise {A} e.

Global Instance outcome_ret : MRet outcome := @Ok.

Global Instance outcome_bind : MBind outcome := λ A B k m,
  match m with
  | Ok a => k a
  | Raise e => Raise e
  end.

Fixpoint omapM {A B} (f : A -> outcome B) (l : list A) : outcome (list B) :=
  match l with
  | [] => Ok []
  | a :: l' => b ← f a; bs ← omapM f l'; Ok (b :: bs)
  end.

(** ** Python strings

    A [str] is modelled as a [string]: a sequence of characters with code
    points below 256. *)

Definition nl : ascii := "010"%char.
Definition NL : string := String nl EmptyString.

(** [len(s)] *)
Definition len (s : string) : Z := Z.of_nat (String.length s).

(** [c.isspace()] for the code points below 256. *)
Definition isspace (c : ascii) : bool :=
  let n := N_of_ascii c in
  ((9 <=? n)%N && (n <=? 13)%N) || ((28 <=? n)%N && (n <=? 32)%N)
  || (n =? 133)%N || (n =? 160)%N.

Fixpoint lstrip (s : string) : string :=
  match s with
  | EmptyString => EmptyString
  | String c s' => if isspace c then lstrip s' else s
  end.

Fixpoint rstrip (s : string) : string :=
  match s with
  | EmptyString => EmptyString
  | String c s' =>
      match rstrip s' with
      | EmptyString => if isspace c then EmptyString else String c EmptyString
      | r => String c r
      end
  end.

(** [s.strip()] *)
Definition strip (s : string) : string := lstrip (rstrip s).

(** The characters of [s] that are not whitespace, in order. *)
Fixpoint remove_whitespace (s : string) : string :=
  match s with
  | EmptyString => EmptyString
  | String c s' =>
      if isspace c then remove_whitespace s' else String c (remove_whitespace s')
  end.

(** [f] is what is left of [s] after a leading part is removed. *)
Definition str_suffix (f s : string) : Prop := ∃ p, s = p +:+ f.

(** [s.split(sep)] for a one-character separator; [re.split] with the
    escaped literal gives the same fields.  The result is never empty:
    splitting the empty string gives one empty field. *)
Fixpoint split (sep : ascii) (s : string) : list string :=
  match s with
  | EmptyString => [EmptyString]
  | String c s' =>
      if Ascii.eqb c sep then EmptyString :: split sep s'
      else match split sep s' with
           | [] => [String c EmptyString]
           | w :: ws => String c w :: ws
           end
  end.

(** [sep.join(parts)] *)
Definition join (sep : string) (parts : list string) : string :=
  String.concat sep parts.

Global Arguments join : simpl never.

Fixpoint starts_with (p s : string) : bool :=
  match p, s with
  | EmptyString, _ => true
  | String a p', String b s' => Ascii.eqb a b && starts_with p' s'
  | String _ _, EmptyString => false
  end.

(** [p in s] on two strings: substring test. *)
Fixpoint str_contains (p s : string) : bool :=
  starts_with p s ||
  match s with
  | EmptyString => false
  | String _ s' => str_contains p s'
  end.

(** [l[i]] on a list, with Python's negative indices. *)
Definition py_index {A} (l : list A) (i : Z) : outcome A :=
  let n := Z.of_nat (length l) in
  let j := if i <? 0 then i + n else i in
  if (0 <=? j) && (j <? n) then
    match l !! Z.to_nat j with
    | Some a => Ok a
    | None => Raise IndexError
    end
  else Raise IndexError.

(** ** langchain: [CharacterTextSplitter]

    The splitter as [langchain.text_splitter] provides it (the code of
    [langchain_text_splitters]), with the [TextSplitter.__init__]
    defaults that the application leaves alone: [length_function = len],
    [keep_separator = False], [strip_whitespace = True]. *)

Module LangChain.

Record CharacterTextSplitter : Type := {
  separator : ascii;
  chunk_size : Z;
  chunk_overlap : Z
}.

(** [_split_text_with_regex(text, separator, keep_separator=False)]:
    [re.split] and then the fields that are not the empty string. *)
Definition split_text_with_regex (text : string) (sep : ascii) : list string :=
  filter (fun s => s ≠ EmptyString) (split sep text).

(** [_join_docs]: join, strip, and [None] for an empty result. *)
Definition join_docs (docs : list string) (sep : string) : option string :=
  let text := strip (join sep docs) in
  if decide (text = EmptyString) then None else Some text.

Section merge.
Context (self : CharacterTextSplitter).

(** The [while] loop of [_merge_splits]: drop splits from the front of
    [current_doc] until what is left fits the overlap and leaves room
    for the next split. *)
Fixpoint pop_front (separator_len _len : Z)
    (current_doc : list string) (total : Z) : outcome (list string * Z) :=
  if (total >? chunk_overlap self)
     || ((total + _len
            + (if 0 <? Z.of_nat (length current_doc) then separator_len else 0)
          >? chunk_size self) && (total >? 0))
  then
    match current_doc with
    | [] => Raise IndexError
    | d0 :: rest =>
        pop_front separator_len _len rest
          (total - (len d0
                    + (if 1 <? Z.of_nat (length current_doc)
                       then separator_len else 0)))
    end
  else Ok (current_doc, total).

(** One round of the [for d in splits] loop; the loop state is
    [(docs, current_doc, total)]. *)
Definition merge_step (sep : string)
    (st : list string * list string * Z) (d : string)
  : outcome (list string * list string * Z) :=
  let '(docs, current_doc, total) := st in
  let separator_len := len sep in
  let _len := len d in
  '(docs, current_doc, total) ←
    (if total + _len
          + (if 0 <? Z.of_nat (length current_doc) then separator_len else 0)
        >? chunk_size self
     then
       if 0 <? Z.of_nat (length current_doc) then
         let docs :=
           match join_docs current_doc sep with
           | Some doc => docs ++ [doc]
           | None => docs
           end in
         '(current_doc, total) ←
           pop_front separator_len _len current_doc total;
         Ok (docs, current_doc, total)
       else Ok (docs, current_doc, total)
     else Ok (docs, current_doc, total));
  let current_doc := current_doc ++ [d] in
  Ok (docs, current_doc,
      total + _len
      + (if 1 <? Z.of_nat (length current_doc) then separator_len else 0)).

Fixpoint merge_loop (sep : string) (splits : list string)
    (st : list string * list string * Z)
  : outcome (list string * list string * Z) :=
  match splits with
  | [] => Ok st
  | d :: rest => st' ← merge_step sep st d; merge_loop sep rest st'
  end.

(** [_merge_splits(splits, separator)] *)
Definition merge_splits (splits : list string) (sep : string)
  : outcome (list string) :=
  '(docs, current_doc, _) ← merge_loop sep splits ([], [], 0);
  match join_docs current_doc sep with
  | Some doc => Ok (docs ++ [doc])
  | None => Ok docs
  end.

(** [split_text(text)] *)
Definition split_text (text : string) : outcome (list string) :=
  let splits := split_text_with_regex text (separator self) in
  merge_splits splits (String (separator self) EmptyString).

(** A chunk as it should be: not empty, and within the size unless it
    is one unit of the text that is itself larger, stripped. *)
Definition chunk_ok (units : list string) (c : string) : Prop :=
  c ≠ EmptyString
  ∧ (len c <= chunk_size self
     ∨ ∃ u, u ∈ units ∧ chunk_size self < len u ∧ c = strip u).

(** The invariant of the [for] loop once the splits [done] have been
    consumed: [total] is the length of the joined [current_doc]; the
    joined [current_doc] fits the size unless it is a single split;
    the chunks emitted so far are as they should be; and the emitted
    chunks, each without some leading part, followed by the splits
    of [current_doc] not yet emitted, spell the non-whitespace
    characters of [done]. *)
Definition merge_inv (sep : string) (units done : list string)
    (st : list string * list string * Z) : Prop :=
  let '(docs, current_doc, total) := st in
  total = len (join sep current_doc)
  ∧ Forall (λ u, u ≠ EmptyString ∧ u ∈ units) current_doc
  ∧ (total <= chunk_size self ∨ (length current_doc ≤ 1)%nat)
  ∧ Forall (chunk_ok units) docs
  ∧ ∃ kept fresh,
      fresh `suffix_of` current_doc
      ∧ Forall2 str_suffix kept docs
      ∧ remove_whitespace (join EmptyString kept)
        +:+ remove_whitespace (join EmptyString fresh)
        = remove_whitespace (join EmptyString done).
End merge.

End LangChain.

(** The splitter of [ingest_docs]:
    [CharacterTextSplitter(separator="\n", chunk_size=500, chunk_overlap=50)]. *)
Definition splitter : LangChain.CharacterTextSplitter :=
  {| LangChain.separator := nl;
     LangChain.chunk_size := 500;
     LangChain.chunk_overlap := 50 |}.

(** ** The document payload

    [documents().get(...).execute()] returns the parsed JSON answer of the
    Docs service.  The handlers walk it with [dict.get], [in], subscripts
    and [for]; each of them is given here on every kind of value, with
    the exception Python raises where the value has the wrong kind. *)

#[warnings="-register-all"]
Inductive json : Type :=
| JNull
| JBool (b : bool)
| JNum (n : Z)
| JStr (s : string)
| JList (l : list json)
| JDict (d : list (string * json)).

Fixpoint dict_lookup (k : string) (d : list (string * json)) : option json :=
  match d with
  | [] => None
  | (k', v) :: d' => if String.eqb k' k then Some v else dict_lookup k d'
  end.

(** [v.get(k, default)] *)
Definition py_get (v : json) (k : string) (default : json) : outcome json :=
  match v with
  | JDict d => Ok (from_option id default (dict_lookup k d))
  | _ => Raise AttributeError
  end.

(** [k in v] for a string [k] *)
Definition py_in (k : string) (v : json) : outcome bool :=
  match v with
  | JDict d => Ok (bool_decide (is_Some (dict_lookup k d)))
  | JList l =>
      Ok (existsb (fun x => match x with JStr s => String.eqb s k | _ => false end) l)
  | JStr s => Ok (str_contains k s)
  | _ => Raise TypeError
  end.

(** [v[k]] for a string [k] *)
Definition py_getitem (v : json) (k : string) : outcome json :=
  match v with
  | JDict d =>
      match dict_lookup k d with
      | Some x => Ok x
      | None => Raise KeyError
      end
  | _ => Raise TypeError
  end.

Fixpoint chars (s : string) : list json :=
  match s with
  | EmptyString => []
  | String c s' => JStr (String c EmptyString) :: chars s'
  end.

(** [for x in v]: the values the loop visits *)
Definition py_iter (v : json) : outcome (list json) :=
  match v with
  | JList l => Ok l
  | JDict d => Ok (map (fun kv => JStr (fst kv)) d)
  | JStr s => Ok (chars s)
  | _ => Raise TypeError
  end.

(** [sep.join(items)]: every item has to be a string *)
Definition py_join (sep : string) (items : list json) : outcome string :=
  strs ← omapM (fun v => match v with JStr s => Ok s | _ => Raise TypeError end) items;
  Ok (join sep strs).

(** The body of the inner loop of [extract_text]: what one paragraph
    element appends to [text_chunks]. *)
Definition elem_chunks (elem : json) : outcome (list json) :=
  has_run ← py_in "textRun" elem;
  if has_run : bool then
    run ← py_getitem elem "textRun";
    has_content ← py_in "content" run;
    if has_content : bool then
      run ← py_getitem elem "textRun";
      content ← py_getitem run "content";
      Ok [content]
    else Ok []
  else Ok [].

(** The body of the outer loop: what one structural element appends. *)
Definition element_chunks (element : json) : outcome (list json) :=
  has_par ← py_in "paragraph" element;
  if has_par : bool then
    par ← py_getitem element "paragraph";
    elements ← py_get par "elements" (JList []);
    elems ← py_iter elements;
    appended ← omapM elem_chunks elems;
    Ok (concat appended)
  else Ok [].

(** [extract_text(gdoc)] of [fetch_doc]; [ingest_docs] repeats the same
    statements inline for each fetched document. *)
Definition extract_text (gdoc : json) : outcome string :=
  body ← py_get gdoc "body" (JDict []);
  content ← py_get body "content" (JList []);
  elements ← py_iter content;
  appended ← omapM element_chunks elements;
  let text_chunks := concat appended in
  py_join "" text_chunks.

(** *** The payload's schema

    A Docs document is an object with an optional [body]; the body has an
    optional list [content] of structural elements; a structural element
    has an optional [paragraph]; a paragraph has an optional list
    [elements]; a paragraph element has an optional [textRun]; a text run
    has an optional string [content].  Other keys are free. *)

Definition field (k : string) (v : json) : option json :=
  match v with
  | JDict d => dict_lookup k d
  | _ => None
  end.

Definition is_dict (v : json) : bool :=
  match v with JDict _ => true | _ => false end.

Definition wf_text_run (v : json) : bool :=
  is_dict v &&
  match field "content" v with
  | None | Some (JStr _) => true
  | Some _ => false
  end.

Definition wf_paragraph_element (v : json) : bool :=
  is_dict v &&
  match field "textRun" v with
  | None => true
  | Some run => wf_text_run run
  end.

Definition wf_paragraph (v : json) : bool :=
  is_dict v &&
  match field "elements" v with
  | None => true
  | Some (JList l) => forallb wf_paragraph_element l
  | Some _ => false
  end.

Definition wf_structural_element (v : json) : bool :=
  is_dict v &&
  match field "paragraph" v with
  | None => true
  | Some par => wf_paragraph par
  end.

Definition wf_body (v : json) : bool :=
  is_dict v &&
  match field "content" v with
  | None => true
  | Some (JList l) => forallb wf_structural_element l
  | Some _ => false
  end.

Definition wf_document (v : json) : bool :=
  is_dict v &&
  match field "body" v with
  | None => true
  | Some body => wf_body body
  end.

(** The text a payload denotes: anything missing along the way counts as
    the empty string, and the contents of the text runs that are present
    are concatenated in document order. *)

Definition list_field (k : string) (v : json) : list json :=
  match field k v with
  | Some (JList l) => l
  | _ => []
  end.

Definition text_run_content (run : json) : string :=
  match field "content" run with
  | Some (JStr s) => s
  | _ => ""
  end.

Definition paragraph_element_text (elem : json) : string :=
  from_option text_run_content "" (field "textRun" elem).

Definition paragraph_text (par : json) : string :=
  join "" (map paragraph_element_text (list_field "elements" par)).

Definition structural_element_text (element : json) : string :=
  from_option paragraph_text "" (field "paragraph" element).

Definition body_text (body : json) : string :=
  join "" (map structural_element_text (list_field "content" body)).

Definition document_text (gdoc : json) : string :=
  from_option body_text "" (field "body" gdoc).

(** ** faiss: [IndexFlatL2]

    The exact index: it keeps the added vectors in order, and a search
    compares the query with every one of them.  Vectors are rows of
    numbers; the float32 arithmetic of the library is taken as exact
    arithmetic on rationals here, and as it is in [FaissFloat] below. *)

Module Faiss.

Definition vec : Type := list Q.

Record IndexFlatL2 : Type := {
  d : nat;
  xb : list vec
}.

Definition ntotal (index : IndexFlatL2) : nat := length (xb index).

(** [faiss.IndexFlatL2(dim)] *)
Definition new (dim : nat) : IndexFlatL2 := {| d := dim; xb := [] |}.

(** [index.add(x)]: the rows of [x] are appended in order; the wrapper
    asserts that their width is the index's dimension. *)
Definition add (index : IndexFlatL2) (x : list vec) : outcome IndexFlatL2 :=
  if forallb (fun v => Nat.eqb (length v) (d index)) x
  then Ok {| d := d index; xb := xb index ++ x |}
  else Raise AssertionError.

(** Squared Euclidean distance. *)
Definition fvec_L2sqr (x y : vec) : Q :=
  foldr Qplus 0%Q (zip_with (fun a b => ((a - b) * (a - b))%Q) x y).

(** The largest float32: the distance of a result slot that no vector
    fills. *)
Definition FLT_MAX : Q := inject_Z (16777215 * 2 ^ 104).

(** Insertion before the first entry that is not strictly nearer, so
    that among equal distances the earlier position stays first. *)
Fixpoint insert_nearest (p : Z * Q) (l : list (Z * Q)) : list (Z * Q) :=
  match l with
  | [] => [p]
  | h :: t =>
      if Qle_bool (snd p) (snd h) then p :: l
      else h :: insert_nearest p t
  end.

Definition sort_nearest (l : list (Z * Q)) : list (Z * Q) :=
  foldr insert_nearest [] l.

(** The order of a result row: by distance. *)
Definition nearer (a b : Z * Q) : Prop := (snd a <= snd b)%Q.

(** The positions [0 .. ntotal-1] with their distance to [q]. *)
Definition distances (index : IndexFlatL2) (q : vec) : list (Z * Q) :=
  imap (fun i v => (Z.of_nat i, fvec_L2sqr q v)) (xb index).

(** One row of the result: the [k] nearest positions, nearest first,
    and [(-1, FLT_MAX)] in the slots that are left over. *)
Definition search_row (index : IndexFlatL2) (k : nat) (q : vec) : list (Z * Q) :=
  let best := take k (sort_nearest (distances index q)) in
  best ++ replicate (k - length best) (-1, FLT_MAX).

(** [D, I = index.search(x, k)]: one row of [k] distances and one row
    of [k] labels for each row of [x]. *)
Definition search (index : IndexFlatL2) (x : list vec) (k : Z)
  : outcome (list (list Q) * list (list Z)) :=
  if negb (forallb (fun q => Nat.eqb (length q) (d index)) x)
  then Raise AssertionError
  else if negb (0 <? k) then Raise AssertionError
  else
    let rows := map (search_row index (Z.to_nat k)) x in
    Ok (map (map snd) rows, map (map fst) rows).

End Faiss.

(** ** sentence-transformers

    The model is a black box: a function from a sentence to a vector of
    the model's dimension.  [encode] on a batch embeds each sentence.
    Loading the model, which both handlers do on every call, is taken to
    succeed. *)

Record SentenceTransformer : Type := {
  dimension : nat;
  embed : string → Faiss.vec;
  embed_dimension : ∀ s, length (embed s) = dimension
}.

(** [model.encode(sentences, convert_to_numpy=True)] *)
Definition encode (model : SentenceTransformer) (sentences : list string)
  : list Faiss.vec :=
  map (embed model) sentences.

(** [embeddings.shape[1]]: an empty batch comes back as an array of
    shape [(0,)], which has no second axis. *)
Definition shape1 (embeddings : list Faiss.vec) : outcome nat :=
  match embeddings with
  | [] => Raise IndexError
  | v :: _ => Ok (length v)
  end.

(** A small model for running the handlers on concrete requests: the
    length of the sentence and its number of letters [c]. *)
Fixpoint count_char (c : ascii) (s : string) : Z :=
  match s with
  | EmptyString => 0
  | String a s' => (if Ascii.eqb a c then 1 else 0) + count_char c s'
  end.

Definition toy_model : SentenceTransformer :=
  {| dimension := 2;
     embed := fun s => [inject_Z (len s); inject_Z (count_char "c" s)];
     embed_dimension := fun _ => eq_refl |}.

(** ** The application state and its handlers *)

(** The value [oauth2callback] stores for a user. *)
Record credentials : Type := {
  token : string;
  refresh_token : option string;
  token_uri : string;
  client_id : string;
  client_secret : string;
  scopes : list string
}.

(** A value of [VECTOR_STORE]: [{"index": faiss_index, "texts": [chunks]}]. *)
Record store : Type := {
  index : Faiss.IndexFlatL2;
  texts : list string
}.

Record app_state : Type := {
  USER_CREDENTIALS : gmap string credentials;
  VECTOR_STORE : gmap string store
}.

(** The state of a freshly started process: both dictionaries are empty. *)
Definition initial_state : app_state :=
  {| USER_CREDENTIALS := ∅; VECTOR_STORE := ∅ |}.

(** What a handler hands to the framework: a status and a JSON object. *)
Record response : Type := {
  status_code : Z;
  content : list (string * json)
}.

Definition JSONResponse (content : list (string * json)) (status_code : Z) : response :=
  {| status_code := status_code; content := content |}.

(** A handler reads and writes the state and either returns or raises;
    the state a raising handler leaves behind is the state at the raise.
    The handlers of [main.py] are coroutines without an [await], so each
    runs to its end before the next request is served. *)
Definition handler (A : Type) : Type := app_state → outcome A * app_state.

Global Instance handler_ret : MRet handler := λ A a st, (Ok a, st).

Global Instance handler_bind : MBind handler := λ A B k m st,
  match m st with
  | (Ok a, st') => k a st'
  | (Raise e, st') => (Raise e, st')
  end.

Definition lift {A} (o : outcome A) : handler A := λ st, (o, st).

Definition get_state : handler app_state := λ st, (Ok st, st).

(** [VECTOR_STORE[key] = value] *)
Definition set_vector_store (key : string) (value : store) : handler unit := λ st,
  (Ok (), {| USER_CREDENTIALS := USER_CREDENTIALS st;
             VECTOR_STORE := <[key := value]> (VECTOR_STORE st) |}).

(** [USER_CREDENTIALS[key] = value] *)
Definition set_user_credentials (key : string) (value : credentials) : handler unit := λ st,
  (Ok (), {| USER_CREDENTIALS := <[key := value]> (USER_CREDENTIALS st);
             VECTOR_STORE := VECTOR_STORE st |}).

(** Google's services as one request sees them: whether [build]
    returns a client, what [documents().get(documentId=...).execute()]
    returns or raises for each document id, and what
    [files().list(...).execute()] returns or raises. *)
Record google_api : Type := {
  build : outcome unit;
  documents_get : string → outcome json;
  files_list : outcome json
}.

Section handlers.
Context (model : SentenceTransformer).

(** [oauth2callback]: [flow] is what the token exchange with Google
    produced, credentials or an exception; the handler catches the
    exception and answers 500. *)
Definition oauth2callback (flow : outcome credentials) : handler response :=
  match flow with
  | Ok creds =>
      _ ← set_user_credentials "default_user" creds;
      mret (JSONResponse [("status", JStr "connected");
                          ("note", JStr "credentials saved")] 200)
  | Raise e =>
      mret (JSONResponse [("error", JStr (str_exn e))] 500)
  end.

Definition get_credentials_for_user (user_key : string) : handler (option credentials) :=
  st ← get_state;
  mret (USER_CREDENTIALS st !! user_key).

(** [list_docs()]; whatever is raised inside the [try] becomes a 500
    answer. *)
Definition list_docs (api : google_api) : handler response :=
  creds ← get_credentials_for_user "default_user";
  match creds with
  | None =>
      mret (JSONResponse
              [("error", JStr "not authenticated. visit /login first")] 401)
  | Some _ =>
      match (_ ← build api;
             results ← files_list api;
             files ← py_get results "files" (JList []);
             files ← py_iter files;
             omapM (λ f, id ← py_getitem f "id";
                         name ← py_getitem f "name";
                         Ok (JDict [("id", id); ("name", name)])) files) with
      | Ok docs => mret (JSONResponse [("documents", JList docs)] 200)
      | Raise e => mret (JSONResponse [("error", JStr (str_exn e))] 500)
      end
  end.

(** [fetch_doc(doc_id)] *)
Definition fetch_doc (api : google_api) (doc_id : string) : handler response :=
  creds ← get_credentials_for_user "default_user";
  match creds with
  | None => mret (JSONResponse [("error", JStr "not authenticated")] 401)
  | Some _ =>
      _ ← lift (build api);
      doc ← lift (documents_get api doc_id);
      plain_text ← lift (extract_text doc);
      id ← lift (py_get doc "documentId" JNull);
      title ← lift (py_get doc "title" JNull);
      mret (JSONResponse [("id", id); ("title", title);
                          ("text", JStr plain_text)] 200)
  end.

(** [ingest_docs(doc_ids)] *)
Definition ingest_docs (api : google_api) (doc_ids : list string)
  : handler response :=
  let user_key := "default_user" in
  creds ← get_credentials_for_user user_key;
  match creds with
  | None =>
      mret (JSONResponse [("error", JStr "not authenticated. visit /login")] 401)
  | Some _ =>
      _ ← lift (build api);
      all_chunks ← lift (omapM (λ doc_id,
                           doc ← documents_get api doc_id;
                           extract_text doc) doc_ids);
      chunks ← lift (pieces ← omapM (LangChain.split_text splitter) all_chunks;
                     Ok (concat pieces));
      let embeddings := encode model chunks in
      dim ← lift (shape1 embeddings);
      let index := Faiss.new dim in
      index ← lift (Faiss.add index embeddings);
      _ ← set_vector_store user_key {| index := index; texts := chunks |};
      mret (JSONResponse
              [("message",
                JStr (pretty (length chunks)
                      +:+ " chunks ingested and indexed for RAG."))] 200)
  end.

(** [chat_query(query)] *)
Definition chat_query (query : string) : handler response :=
  let user_key := "default_user" in
  st ← get_state;
  match VECTOR_STORE st !! user_key with
  | None =>
      mret (JSONResponse
              [("error", JStr "No documents ingested yet. Use /ingest first.")] 400)
  | Some store =>
      let index := index store in
      let texts := texts store in
      let query_vec := encode model [query] in
      '(D, I_) ← lift (Faiss.search index query_vec 3);
      row ← lift (py_index I_ 0);
      results ← lift (omapM (py_index texts) row);
      let response_text := join (NL +:+ "---" +:+ NL) results in
      mret (JSONResponse [("query", JStr query);
                          ("response", JStr response_text)] 200)
  end.

(** The requests that reach the state, each with what the outside world
    answers while it is served. *)
Inductive request : Type :=
| OAuthCallback (flow : outcome credentials)
| ListDocs (api : google_api)
| FetchDoc (api : google_api) (doc_id : string)
| Ingest (api : google_api) (doc_ids : list string)
| ChatQuery (query : string).

Definition handle (r : request) : handler response :=
  match r with
  | OAuthCallback flow => oauth2callback flow
  | ListDocs api => list_docs api
  | FetchDoc api doc_id => fetch_doc api doc_id
  | Ingest api doc_ids => ingest_docs api doc_ids
  | ChatQuery query => chat_query query
  end.

(** Serving a sequence of requests, one after the other. *)
Fixpoint serve (rs : list request) (st : app_state) : app_state :=
  match rs with
  | [] => st
  | r :: rs' => serve rs' (snd (handle r st))
  end.

Definition is_ingest (r : request) : bool :=
  match r with Ingest _ _ => true | _ => false end.

Definition succeeded (o : outcome response) : bool :=
  match o with
  | Ok r => status_code r =? 200
  | Raise _ => false
  end.

(** Whether some ingestion among [rs], served from [st], succeeded. *)
Fixpoint ingested (rs : list request) (st : app_state) : bool :=
  match rs with
  | [] => false
  | r :: rs' =>
      (is_ingest r && succeeded (fst (handle r st)))
      || ingested rs' (snd (handle r st))
  end.

(** The invariant of a stored value: as many vectors as chunk texts,
    and the vector at each position is the embedding of the text at
    that position. *)
Definition store_inv (s : store) : Prop :=
  Faiss.ntotal (index s) = length (texts s)
  ∧ ∀ i t, texts s !! i = Some t → Faiss.xb (index s) !! i = Some (embed model t).

End handlers.

(** ** Sample documents *)

Definition text_run (s : string) : json :=
  JDict [("startIndex", JNum 1); ("textRun", JDict [("content", JStr s)])].

Definition paragraph (runs : list string) : json :=
  JDict [("paragraph", JDict [("elements", JList (map text_run runs))])].

Definition gdoc (paragraphs : list (list string)) : json :=
  JDict [("documentId", JStr "doc"); ("title", JStr "a document");
         ("body", JDict [("content", JList (map paragraph paragraphs))])].

Definition cat_dog : string := "The cat sat." +:+ NL +:+ NL +:+ "The dog ran.".

Definition cat_dog_chunk : string := "The cat sat." +:+ NL +:+ "The dog ran.".

Definition some_credentials : credentials :=
  {| token := "t"; refresh_token := None; token_uri := "u";
     client_id := "c"; client_secret := "s"; scopes := ["openid"] |}.

Definition logged_in : app_state :=
  {| USER_CREDENTIALS := {["default_user" := some_credentials]};
     VECTOR_STORE := ∅ |}.

(** A Google account with two documents; the request for any other id
    fails. *)
Definition docs_service : google_api :=
  {| build := Ok ();
     documents_get := λ doc_id,
       if String.eqb doc_id "catdog"
       then Ok (gdoc [["The cat sat." +:+ NL; NL; "The dog ran."]])
       else if String.eqb doc_id "fox" then Ok (gdoc [["The quick brown fox."]])
       else Raise HttpError;
     files_list :=
       Ok (JDict [("files",
                   JList [JDict [("id", JStr "catdog"); ("name", JStr "Cat and dog")];
                          JDict [("id", JStr "fox"); ("name", JStr "Fox")]])]) |}.

(** ** The chunks as runs of lines

    What [_merge_splits] emits can be told line by line.  A run is what
    one chunk is made from: the lines repeated from the run before it
    (the overlap), and the lines that are new. *)

Definition run_lines (r : list string * list string) : list string :=
  r.1 ++ r.2.

(** The chunk of a run: its lines joined by the separator, stripped. *)
Definition run_chunk (sep : string) (r : list string * list string) : string :=
  strip (join sep (run_lines r)).

Definition last_run_lines (runs : list (list string * list string))
  : list string :=
  from_option run_lines [] (last runs).

(** Every run has new lines, and its overlap is a tail of the run before
    it; the first run comes after [before]. *)
Fixpoint overlap_chain (before : list string)
    (runs : list (list string * list string)) : Prop :=
  match runs with
  | [] => True
  | r :: rest =>
      r.1 `suffix_of` before ∧ r.2 ≠ [] ∧ overlap_chain (run_lines r) rest
  end.

(** A run is within the size, or it is a single line. *)
Definition run_fits (self : LangChain.CharacterTextSplitter) (sep : string)
    (r : list string * list string) : Prop :=
  len (join sep (run_lines r)) <= LangChain.chunk_size self
  ∨ (length (run_lines r) ≤ 1)%nat.

(** The loop of [_merge_splits] in terms of runs, once the splits [done]
    have been consumed: [current_doc] is an overlap followed by new
    lines; the emitted chunks are the non-empty chunks of the runs so
    far; the new lines of the runs, followed by the new lines of
    [current_doc], are [done]. *)
Definition runs_inv (self : LangChain.CharacterTextSplitter) (sep : string)
    (done : list string) (st : list string * list string * Z) : Prop :=
  let '(docs, current_doc, _) := st in
  ∃ runs overlap fresh,
    current_doc = overlap ++ fresh
    ∧ (fresh = [] → current_doc = [])
    ∧ docs = filter (λ c, c ≠ EmptyString) (map (run_chunk sep) runs)
    ∧ concat (map snd runs) ++ fresh = done
    ∧ overlap_chain [] runs
    ∧ overlap `suffix_of` last_run_lines runs
    ∧ Forall (run_fits self sep) runs.

(** ** faiss and sentence-transformers as the process meets them

    The handlers above take the two libraries at their best: the model
    always loads, and the index computes with exact numbers.  Here they
    are without that.  The index computes every distance in float32, in
    an order of operations that depends on the build; such a computation
    is a [kernel], of which only the result is used: [Some d] when the
    result is the finite number [d], [None] when it is an infinity or
    not a number. *)

Module FaissFloat.

Definition kernel : Type := Faiss.vec → Faiss.vec → option Q.

(** The kernel of exact arithmetic. *)
Definition exact : kernel := λ x y, Some (Faiss.fvec_L2sqr x y).

(** The vectors that enter the result heap, each with its position and
    its computed distance to [q].  The heap starts out filled with
    [(-1, FLT_MAX)] and takes a vector only when its distance is
    strictly below the largest distance in the heap: a distance that is
    [FLT_MAX], an infinity or not a number never enters. *)
Definition candidates (dis : kernel) (index : Faiss.IndexFlatL2) (q : Faiss.vec)
  : list (Z * Q) :=
  omap (λ p, match p.2 with
             | Some d => if Qle_bool Faiss.FLT_MAX d then None else Some (p.1, d)
             | None => None
             end)
    (imap (λ i v, (Z.of_nat i, dis q v)) (Faiss.xb index)).

(** One row of the result: the [k] candidates of least computed
    distance, least first, and [(-1, FLT_MAX)] in the slots left over. *)
Definition search_row (dis : kernel) (index : Faiss.IndexFlatL2) (k : nat)
    (q : Faiss.vec) : list (Z * Q) :=
  let best := take k (Faiss.sort_nearest (candidates dis index q)) in
  best ++ replicate (k - length best) (-1, Faiss.FLT_MAX).

(** [D, I = index.search(x, k)] *)
Definition search (dis : kernel) (index : Faiss.IndexFlatL2)
    (x : list Faiss.vec) (k : Z) : outcome (list (list Q) * list (list Z)) :=
  if negb (forallb (fun q => Nat.eqb (length q) (Faiss.d index)) x)
  then Raise AssertionError
  else if negb (0 <? k) then Raise AssertionError
  else
    let rows := map (search_row dis index (Z.to_nat k)) x in
    Ok (map (map snd) rows, map (map fst) rows).

End FaissFloat.

Module Live.

(** [chat_query(query)] with the libraries as they are.  [embedder] is
    what [SentenceTransformer("all-MiniLM-L6-v2")] and
    [model.encode([query])] do during this call: they return, or one of
    them raises; [dis] is the distance computation of the index. *)
Definition chat_query (model : SentenceTransformer) (dis : FaissFloat.kernel)
    (embedder : outcome unit) (query : string) : handler response :=
  let user_key := "default_user" in
  st ← get_state;
  match VECTOR_STORE st !! user_key with
  | None =>
      mret (JSONResponse
              [("error", JStr "No documents ingested yet. Use /ingest first.")] 400)
  | Some store =>
      let index := index store in
      let texts := texts store in
      _ ← lift embedder;
      let query_vec := encode model [query] in
      '(D, I_) ← lift (FaissFloat.search dis index query_vec 3);
      row ← lift (py_index I_ 0);
      results ← lift (omapM (py_index texts) row);
      let response_text := join (NL +:+ "---" +:+ NL) results in
      mret (JSONResponse [("query", JStr query);
                          ("response", JStr response_text)] 200)
  end.

End Live.

(* ===================================================================== *)
(** * Part II: properties                                                 *)
(* ===================================================================== *)

(** ** The error monad *)

Lemma omapM_Ok {A B} (f : A → outcome B) l bs :
  omapM f l = Ok bs → Forall2 (λ a b, f a = Ok b) l bs.
Proof.
  revert bs. induction l as [|a l IH]; intros bs H; simpl in H.
  - injection H as <-. constructor.
  - unfold mbind, outcome_bind in H.
    destruct (f a) as [b|e] eqn:Hb; [|discriminate].
    destruct (omapM f l) as [bs'|e] eqn:Hbs; [|discriminate].
    injection H as <-. constructor; auto.
Qed.

Lemma omapM_Raise {A B} (f : A → outcome B) l a e :
  a ∈ l → f a = Raise e → ∃ e', omapM f l = Raise e'.
Proof.
  intros Hin Hf.
  destruct (omapM f l) as [bs|e'] eqn:H; [|eauto].
  apply omapM_Ok in H.
  apply list_elem_of_lookup in Hin as [i Hi].
  destruct (Forall2_lookup_l _ _ _ _ _ H Hi) as (b & _ & Hb). congruence.
Qed.

Lemma omapM_total {A B} (f : A → outcome B) (g : A → B) l :
  Forall (λ a, f a = Ok (g a)) l → omapM f l = Ok (map g l).
Proof.
  induction 1 as [|a l Ha _ IH]; simpl; [done|].
  unfold mbind, outcome_bind. by rewrite Ha, IH.
Qed.

(** ** Strings *)

Lemma append_empty_l s : "" +:+ s = s.
Proof. reflexivity. Qed.

Lemma append_cons c s1 s2 : String c s1 +:+ s2 = String c (s1 +:+ s2).
Proof. reflexivity. Qed.

Lemma append_empty_r s : s +:+ "" = s.
Proof. induction s; rewrite ?append_cons; [done|congruence]. Qed.

Lemma append_assoc s1 s2 s3 : (s1 +:+ s2) +:+ s3 = s1 +:+ (s2 +:+ s3).
Proof. induction s1; rewrite ?append_cons; [done|congruence]. Qed.

Lemma join_cons sep s l :
  l ≠ [] → join sep (s :: l) = s +:+ sep +:+ join sep l.
Proof. by destruct l. Qed.

Lemma join_empty_cons s l : join "" (s :: l) = s +:+ join "" l.
Proof. destruct l; simpl; [by rewrite append_empty_r|done]. Qed.

Lemma join_empty_app l1 l2 : join "" (l1 ++ l2) = join "" l1 +:+ join "" l2.
Proof.
  induction l1 as [|s l1 IH]; [done|].
  rewrite <- app_comm_cons, !join_empty_cons, IH. by rewrite append_assoc.
Qed.

Lemma append_eq_empty s1 s2 : s1 +:+ s2 = "" → s1 = "" ∧ s2 = "".
Proof. destruct s1; [done|]. rewrite append_cons. discriminate. Qed.

Lemma len_empty : len "" = 0.
Proof. reflexivity. Qed.

Lemma len_cons c s : len (String c s) = 1 + len s.
Proof. unfold len. simpl. lia. Qed.

Lemma len_nonneg s : 0 <= len s.
Proof. unfold len. lia. Qed.

Lemma len_pos s : s ≠ "" → 0 < len s.
Proof. destruct s; [done|]. rewrite len_cons. pose proof (len_nonneg s). lia. Qed.

Lemma len_append s1 s2 : len (s1 +:+ s2) = len s1 + len s2.
Proof.
  induction s1 as [|c s1 IH]; [rewrite append_empty_l, len_empty; lia|].
  rewrite append_cons, !len_cons, IH. lia.
Qed.

Lemma lstrip_len s : len (lstrip s) <= len s.
Proof.
  induction s as [|c s IH]; simpl; [done|].
  destruct (isspace c); rewrite !len_cons; lia.
Qed.

Lemma rstrip_len s : len (rstrip s) <= len s.
Proof.
  induction s as [|c s IH]; simpl; [done|].
  destruct (rstrip s); [destruct (isspace c)|];
    rewrite ?len_cons, ?len_empty in *; pose proof (len_nonneg s); lia.
Qed.

Lemma strip_len s : len (strip s) <= len s.
Proof.
  unfold strip. pose proof (lstrip_len (rstrip s)). pose proof (rstrip_len s). lia.
Qed.

(** *** The characters that are not whitespace *)

Lemma remove_whitespace_append s1 s2 :
  remove_whitespace (s1 +:+ s2) = remove_whitespace s1 +:+ remove_whitespace s2.
Proof.
  induction s1 as [|c s1 IH]; [done|].
  rewrite append_cons. simpl. destruct (isspace c); [done|].
  by rewrite append_cons, IH.
Qed.

Lemma remove_whitespace_lstrip s : remove_whitespace (lstrip s) = remove_whitespace s.
Proof.
  induction s as [|c s IH]; simpl; [done|].
  destruct (isspace c) eqn:Hc; simpl; by rewrite ?Hc.
Qed.

Lemma remove_whitespace_rstrip s : remove_whitespace (rstrip s) = remove_whitespace s.
Proof.
  induction s as [|c s IH]; simpl; [done|]. rewrite <- IH.
  destruct (rstrip s) as [|c' r]; simpl.
  - destruct (isspace c) eqn:Hc; simpl; by rewrite ?Hc.
  - done.
Qed.

Lemma remove_whitespace_strip s : remove_whitespace (strip s) = remove_whitespace s.
Proof. unfold strip. by rewrite remove_whitespace_lstrip, remove_whitespace_rstrip. Qed.

(** A string whose non-whitespace characters are [x] followed by [y]
    can be cut in two parts that have [x] and [y] as theirs. *)
Lemma remove_whitespace_cut s x y :
  remove_whitespace s = x +:+ y →
  ∃ a b, s = a +:+ b ∧ remove_whitespace a = x ∧ remove_whitespace b = y.
Proof.
  revert x. induction s as [|c s IH]; intros x H; simpl in H.
  - symmetry in H. apply append_eq_empty in H as [-> ->]. by exists "", "".
  - destruct (isspace c) eqn:Hc.
    + destruct (IH x H) as (a & b & -> & Ha & Hb).
      exists (String c a), b. split_and!; [done| |done]. simpl. by rewrite Hc.
    + destruct x as [|c' x].
      * rewrite append_empty_l in H. exists "", (String c s).
        split_and!; [done..|]. simpl. by rewrite Hc.
      * rewrite append_cons in H. injection H as <- H.
        destruct (IH x H) as (a & b & -> & Ha & Hb).
        exists (String c a), b. split_and!; [done| |done].
        simpl. by rewrite Hc, Ha.
Qed.

Lemma str_suffix_refl s : str_suffix s s.
Proof. by exists "". Qed.

(** *** [join] and [split] *)

Lemma join_snoc sep l d :
  join sep (l ++ [d]) = match l with [] => d | _ => join sep l +:+ sep +:+ d end.
Proof.
  induction l as [|s l IH]; [done|].
  rewrite <- app_comm_cons, join_cons by (by destruct l).
  rewrite IH. destruct l as [|s' l]; [done|].
  rewrite (join_cons sep s (s' :: l)) by done. by rewrite !append_assoc.
Qed.

Lemma remove_whitespace_join sep l :
  remove_whitespace sep = "" →
  remove_whitespace (join sep l) = remove_whitespace (join "" l).
Proof.
  intros Hsep. induction l as [|s l IH]; [done|].
  rewrite join_empty_cons. destruct l as [|s' l].
  - by rewrite append_empty_r.
  - rewrite join_cons by done.
    by rewrite !remove_whitespace_append, Hsep, IH.
Qed.

Lemma join_empty_filter l :
  join "" (filter (λ s, s ≠ "") l) = join "" l.
Proof.
  induction l as [|s l IH]; [done|].
  rewrite filter_cons. destruct (decide (s ≠ "")) as [?|Hs].
  - by rewrite !join_empty_cons, IH.
  - apply dec_stable in Hs as ->. by rewrite join_empty_cons, IH.
Qed.

Lemma split_not_nil sep s : split sep s ≠ [].
Proof.
  destruct s as [|c s]; simpl; [done|].
  destruct (Ascii.eqb c sep); [done|]. by destruct (split sep s).
Qed.

Lemma remove_whitespace_split sep s :
  isspace sep = true →
  remove_whitespace (join "" (split sep s)) = remove_whitespace s.
Proof.
  intros Hsep. induction s as [|c s IH]; [done|]. simpl.
  destruct (Ascii.eqb_spec c sep) as [->|_].
  - by rewrite join_empty_cons, append_empty_l, Hsep.
  - destruct (split sep s) as [|w ws] eqn:Hsplit; [by destruct (split_not_nil sep s)|].
    rewrite join_empty_cons, append_cons, <- join_empty_cons. simpl.
    by rewrite IH.
Qed.

Lemma join_split sep s : join (String sep "") (split sep s) = s.
Proof.
  induction s as [|c s IH]; [done|]. simpl.
  destruct (Ascii.eqb_spec c sep) as [->|_].
  - rewrite join_cons by apply split_not_nil.
    by rewrite append_empty_l, append_cons, append_empty_l, IH.
  - destruct (split sep s) as [|w ws] eqn:Hsplit; [by destruct (split_not_nil sep s)|].
    rewrite <- IH. destruct ws as [|w' ws]; [done|].
    by rewrite !(join_cons _ _ (w' :: ws)), append_cons.
Qed.

(** ** Text extraction *)

Lemma py_join_strings sep strs : py_join sep (map JStr strs) = Ok (join sep strs).
Proof.
  unfold py_join, mbind, outcome_bind.
  rewrite (omapM_total _ (λ v, match v with JStr s => s | _ => "" end)).
  - by rewrite map_map, map_id.
  - apply Forall_forall. intros v Hv.
    apply list_elem_of_In, in_map_iff in Hv as (s & <- & _). done.
Qed.

(** What the loops append for a list of elements, given what they append
    for each: the pieces in order, and their concatenation is the text of
    the list. *)
Lemma chunks_of_list (f : json → outcome (list json)) (text : json → string) l :
  Forall (λ v, ∃ strs, f v = Ok (map JStr strs) ∧ join "" strs = text v) l →
  ∃ strs, (appended ← omapM f l; Ok (concat appended)) = Ok (map JStr strs)
          ∧ join "" strs = join "" (map text l).
Proof.
  unfold mbind, outcome_bind.
  induction 1 as [|v l (strs & Hv & Htext) _ (rest & IH & Hrest)].
  - by exists [].
  - cbn [omapM]. unfold mbind, outcome_bind. rewrite Hv.
    destruct (omapM f l) as [appended|]; [|discriminate].
    injection IH as IH. exists (strs ++ rest). split.
    + cbn [concat]. by rewrite IH, map_app.
    + cbn [map]. by rewrite join_empty_app, join_empty_cons, Htext, Hrest.
Qed.

Lemma elem_chunks_wf elem :
  wf_paragraph_element elem = true →
  ∃ strs, elem_chunks elem = Ok (map JStr strs)
          ∧ join "" strs = paragraph_element_text elem.
Proof.
  unfold wf_paragraph_element, paragraph_element_text, elem_chunks.
  destruct elem as [| | | | |d]; try discriminate. simpl.
  destruct (dict_lookup "textRun" d) as [run|]; simpl; [|by exists []].
  unfold wf_text_run, text_run_content.
  destruct run as [| | | | |r]; try discriminate. simpl.
  destruct (dict_lookup "content" r) as [[| | |s| |]|]; try discriminate; simpl.
  - by exists [s].
  - by exists [].
Qed.

Lemma element_chunks_wf element :
  wf_structural_element element = true →
  ∃ strs, element_chunks element = Ok (map JStr strs)
          ∧ join "" strs = structural_element_text element.
Proof.
  unfold wf_structural_element, structural_element_text, element_chunks.
  destruct element as [| | | | |d]; try discriminate. simpl.
  destruct (dict_lookup "paragraph" d) as [par|]; simpl; [|by exists []].
  unfold wf_paragraph, paragraph_text, list_field.
  destruct par as [| | | | |p]; try discriminate. simpl.
  destruct (dict_lookup "elements" p) as [[| | | |l|]|]; try discriminate; simpl.
  - intros Hl. apply (chunks_of_list elem_chunks paragraph_element_text).
    apply Forall_forall. intros v Hv. apply elem_chunks_wf.
    rewrite forallb_forall in Hl. by apply Hl, list_elem_of_In.
  - by exists [].
Qed.

(** C10. On every payload that follows the schema of a Docs document,
    every field of which may be missing, text extraction returns a
    string and does not raise; the string is the concatenation, in
    document order, of the contents of the text runs that are present,
    anything missing counting as the empty string. *)
Theorem extract_text_total gdoc :
  wf_document gdoc = true →
  extract_text gdoc = Ok (document_text gdoc).
Proof.
  unfold wf_document, document_text, extract_text.
  destruct gdoc as [| | | | |d]; try discriminate. simpl.
  destruct (dict_lookup "body" d) as [body|]; simpl; [|done].
  unfold wf_body, body_text, list_field.
  destruct body as [| | | | |b]; try discriminate. simpl.
  destruct (dict_lookup "content" b) as [[| | | |l|]|]; try discriminate; simpl;
    [|done].
  intros Hl.
  destruct (chunks_of_list element_chunks structural_element_text l)
    as (strs & Happ & Htext).
  { apply Forall_forall. intros v Hv. apply element_chunks_wf.
    rewrite forallb_forall in Hl. by apply Hl, list_elem_of_In. }
  unfold mbind, outcome_bind in *.
  destruct (omapM element_chunks l) as [appended|]; [|discriminate].
  injection Happ as ->. by rewrite py_join_strings, Htext.
Qed.

Lemma extract_text_total_witness :
  extract_text
    (JDict [("title", JStr "notes");
            ("body",
             JDict [("content",
                     JList [JDict [("sectionBreak", JDict [])];
                            paragraph ["The cat sat." +:+ NL; NL];
                            JDict [("paragraph", JDict [])];
                            JDict [("paragraph",
                                    JDict [("elements",
                                            JList [JDict [("pageBreak", JDict [])];
                                                   JDict [("textRun", JDict [])];
                                                   text_run "The dog ran."])])]])])])
  = Ok cat_dog.
Proof.
  apply (extract_text_total
           (JDict [("title", JStr "notes");
            ("body",
             JDict [("content",
                     JList [JDict [("sectionBreak", JDict [])];
                            paragraph ["The cat sat." +:+ NL; NL];
                            JDict [("paragraph", JDict [])];
                            JDict [("paragraph",
                                    JDict [("elements",
                                            JList [JDict [("pageBreak", JDict [])];
                                                   JDict [("textRun", JDict [])];
                                                   text_run "The dog ran."])])]])])])).
  reflexivity.
Defined.

(** Off the schema the walk can raise: a [body] that is [null] has no
    [get]. *)
Example extract_null_body :
  extract_text (JDict [("body", JNull)]) = Raise AttributeError.
Proof. reflexivity. Qed.

Example extract_cat_dog :
  extract_text (gdoc [["The cat sat." +:+ NL; NL; "The dog ran."]]) = Ok cat_dog.
Proof. vm_compute. reflexivity. Qed.

(** ** The text splitter *)

Ltac bool_to_Z :=
  repeat match goal with
    | H : context [(?a >? ?b)] |- _ => rewrite (Z.gtb_ltb a b) in H
    | |- context [(?a >? ?b)] => rewrite (Z.gtb_ltb a b)
    end;
  repeat match goal with
    | H : context [(?a <? ?b)] |- _ => destruct (Z.ltb_spec a b); simpl in H
    | |- context [(?a <? ?b)] => destruct (Z.ltb_spec a b); simpl
    end.

Lemma len_join_cons sep u l : len u <= len (join sep (u :: l)).
Proof.
  destruct l as [|u' l]; [done|].
  rewrite join_cons, !len_append by done.
  pose proof (len_nonneg sep). pose proof (len_nonneg (join sep (u' :: l))). lia.
Qed.

Section splitter_facts.
Import LangChain.
Context (self : CharacterTextSplitter) (sep : string) (units : list string).
Hypothesis overlap_nonneg : 0 <= chunk_overlap self.
Hypothesis sep_whitespace : remove_whitespace sep = "".

(** The [while] loop ends without running off the front of
    [current_doc]; it leaves a tail of [current_doc], [total] still its
    joined length, that makes room for the next split or is empty. *)
Lemma pop_front_spec _len current_doc :
  ∃ rest,
    pop_front self (len sep) _len current_doc (len (join sep current_doc))
    = Ok (rest, len (join sep rest))
    ∧ rest `suffix_of` current_doc
    ∧ (len (join sep rest) + _len
         + (if 0 <? Z.of_nat (length rest) then len sep else 0)
       <= chunk_size self
       ∨ len (join sep rest) <= 0).
Proof.
  induction current_doc as [|d0 tail IH]; cbn [pop_front].
  - exists []. change (len (join sep [])) with 0.
    split_and!; [|done|by right]. bool_to_Z; (done || lia).
  - destruct (_ || _) eqn:Hcond.
    + destruct IH as (rest & Hpop & Hsuf & Hroom).
      exists rest. split_and!; [|by apply suffix_cons_r|done].
      rewrite <- Hpop. f_equal. destruct tail as [|d1 tail].
      * change (join sep [d0]) with d0. change (join sep []) with "".
        rewrite len_empty. simpl. lia.
      * rewrite join_cons, !len_append by done.
        cbn [length]. bool_to_Z; lia.
    + exists (d0 :: tail). split_and!; [done..|].
      apply orb_false_iff in Hcond as [H1 H2].
      apply andb_false_iff in H2.
      bool_to_Z; destruct H2; (done || lia).
Qed.

(** Emitting [current_doc]: the chunk, if there is one, is as it should
    be, and with it everything consumed so far is accounted for. *)
Lemma emit_inv done docs current_doc total :
  merge_inv self sep units done (docs, current_doc, total) →
  let docs' := match join_docs current_doc sep with
               | Some doc => docs ++ [doc]
               | None => docs
               end in
  Forall (chunk_ok self units) docs'
  ∧ ∃ kept, Forall2 str_suffix kept docs'
            ∧ remove_whitespace (join "" kept) = remove_whitespace (join "" done).
Proof.
  intros (Htotal & Hcur & Hsize & Hdocs & kept & fresh & [k Hk] & Hkept & Hrw).
  assert (remove_whitespace (strip (join sep current_doc))
          = remove_whitespace (join "" k) +:+ remove_whitespace (join "" fresh))
    as Hdoc.
  { rewrite remove_whitespace_strip, remove_whitespace_join by done.
    by rewrite Hk, join_empty_app, remove_whitespace_append. }
  unfold join_docs. simpl.
  destruct (decide (strip (join sep current_doc) = "")) as [Hempty|Hdoc_ne].
  - split; [done|]. exists kept. split; [done|].
    rewrite Hempty in Hdoc. symmetry in Hdoc.
    apply append_eq_empty in Hdoc as [_ Hfresh].
    by rewrite <- Hrw, Hfresh, append_empty_r.
  - split.
    + apply Forall_app. split; [done|]. constructor; [|done].
      split; [done|].
      destruct Hsize as [Hsize|Hone].
      * left. pose proof (strip_len (join sep current_doc)). lia.
      * destruct current_doc as [|u [|??]]; [done| |simpl in Hone; lia].
        change (join sep [u]) with u in *.
        destruct (Z.le_gt_cases (len u) (chunk_size self)).
        -- left. pose proof (strip_len u). lia.
        -- right. exists u. apply Forall_inv in Hcur as [_ Hu]. split_and!; [done|lia|done].
    + destruct (remove_whitespace_cut _ _ _ Hdoc) as (a & f & Hcut & _ & Hf).
      exists (kept ++ [f]). split.
      * apply Forall2_app; [done|]. constructor; [|done]. by exists a.
      * rewrite join_empty_app, remove_whitespace_append.
        change (join "" [f]) with f. by rewrite Hf.
Qed.

(** Appending the split [d] to a [current_doc] that has room for it. *)
Lemma append_inv done docs current_doc d :
  d ≠ "" → d ∈ units →
  Forall (λ u, u ≠ "" ∧ u ∈ units) current_doc →
  (current_doc = []
   ∨ len (join sep current_doc) + len d + len sep <= chunk_size self) →
  Forall (chunk_ok self units) docs →
  (∃ kept fresh,
      fresh `suffix_of` current_doc
      ∧ Forall2 str_suffix kept docs
      ∧ remove_whitespace (join "" kept) +:+ remove_whitespace (join "" fresh)
        = remove_whitespace (join "" done)) →
  merge_inv self sep units (done ++ [d])
    (docs, current_doc ++ [d],
     len (join sep current_doc) + len d
     + (if 1 <? Z.of_nat (length (current_doc ++ [d])) then len sep else 0)).
Proof.
  intros Hd Hin Hcur Hroom Hdocs (kept & fresh & Hsuf & Hkept & Hrw).
  assert (len (join sep current_doc) + len d
          + (if 1 <? Z.of_nat (length (current_doc ++ [d])) then len sep else 0)
          = len (join sep (current_doc ++ [d]))) as Htotal.
  { rewrite join_snoc. destruct current_doc as [|u l].
    - change (join sep []) with "". rewrite len_empty. simpl. lia.
    - rewrite !len_append, length_app. cbn [length]. bool_to_Z; lia. }
  split_and!.
  - done.
  - apply Forall_app. split; [done|]. by constructor.
  - destruct Hroom as [->|Hroom]; [by right|]. left.
    rewrite Htotal, join_snoc. destruct current_doc as [|u l].
    + change (join sep []) with "" in Hroom. rewrite len_empty in Hroom.
      pose proof (len_nonneg sep). lia.
    + rewrite !len_append. lia.
  - done.
  - exists kept, (fresh ++ [d]). split_and!; [by apply suffix_app|done|].
    rewrite !join_empty_app, !remove_whitespace_append.
    by rewrite <- Hrw, append_assoc.
Qed.

Lemma merge_step_inv done st d :
  merge_inv self sep units done st → d ≠ "" → d ∈ units →
  ∃ st', merge_step self sep st d = Ok st'
         ∧ merge_inv self sep units (done ++ [d]) st'.
Proof.
  destruct st as [[docs current_doc] total]. intros Hinv Hd Hin.
  pose proof Hinv as (-> & Hcur & Hsize & Hdocs & Hkept).
  unfold merge_step.
  destruct (_ >? chunk_size self) eqn:Hover;
    [destruct (0 <? Z.of_nat (length current_doc)) eqn:Hne|].
  - (* the split does not fit: emit, drop from the front, append *)
    destruct (emit_inv _ _ _ _ Hinv) as (Hdocs' & kept' & Hkept' & Hrw').
    destruct (pop_front_spec (len d) current_doc)
      as (rest & Hpop & [k Hsuf] & Hroom).
    unfold mbind, outcome_bind. rewrite Hpop.
    eexists. split; [done|].
    rewrite Hsuf in Hcur. apply Forall_app in Hcur as [_ Hrest].
    apply append_inv; try done.
    + destruct rest as [|u l]; [by left|right].
      cbn [length] in Hroom. destruct Hroom as [Hroom|Hzero].
      * bool_to_Z; lia.
      * apply Forall_inv in Hrest as [Hu _]. apply len_pos in Hu.
        pose proof (len_join_cons sep u l). lia.
    + exists kept', []. split_and!; [apply suffix_nil|done|].
      by rewrite append_empty_r.
  - (* nothing to emit: [current_doc] is empty *)
    apply Z.ltb_ge in Hne.
    assert (current_doc = []) as ->
      by (destruct current_doc; [done|cbn [length] in Hne; lia]).
    eexists. split; [done|]. apply append_inv; try done. by left.
  - (* the split fits *)
    eexists. split; [done|]. apply append_inv; try done.
    destruct current_doc as [|u l]; [by left|right].
    cbn [length] in Hover. bool_to_Z; lia.
Qed.

Lemma merge_loop_inv splits done st :
  merge_inv self sep units done st →
  Forall (λ d, d ≠ "" ∧ d ∈ units) splits →
  ∃ st', merge_loop self sep splits st = Ok st'
         ∧ merge_inv self sep units (done ++ splits) st'.
Proof.
  intros Hinv Hsplits. revert done st Hinv.
  induction Hsplits as [|d splits [Hd Hin] _ IH]; intros done st Hinv.
  - exists st. by rewrite app_nil_r.
  - destruct (merge_step_inv done st d Hinv Hd Hin) as (st1 & Hstep & Hinv1).
    destruct (IH _ _ Hinv1) as (st' & Hloop & Hinv').
    exists st'. cbn [merge_loop]. unfold mbind, outcome_bind.
    rewrite Hstep. by rewrite <- app_assoc in Hinv'.
Qed.

Lemma merge_splits_spec splits :
  Forall (λ d, d ≠ "" ∧ d ∈ units) splits →
  ∃ chunks kept,
    merge_splits self splits sep = Ok chunks
    ∧ Forall (chunk_ok self units) chunks
    ∧ Forall2 str_suffix kept chunks
    ∧ remove_whitespace (join "" kept) = remove_whitespace (join "" splits).
Proof.
  intros Hsplits.
  destruct (merge_loop_inv splits [] ([], [], 0)) as ([[docs cur] total] & Hloop & Hinv);
    [|done|].
  { split_and!; [done|done|right; simpl; lia|done|].
    exists [], []. by split_and!. }
  destruct (emit_inv _ _ _ _ Hinv) as (Hdocs & kept & Hkept & Hrw).
  unfold merge_splits, mbind, outcome_bind. rewrite Hloop.
  destruct (join_docs cur sep); by eexists _, kept.
Qed.

End splitter_facts.

(** What [split_text] of the application's splitter returns on any
    text. *)
Lemma split_text_spec text :
  ∃ chunks kept,
    LangChain.split_text splitter text = Ok chunks
    ∧ Forall (LangChain.chunk_ok splitter (split nl text)) chunks
    ∧ Forall2 str_suffix kept chunks
    ∧ remove_whitespace (join "" kept) = remove_whitespace text.
Proof.
  destruct (merge_splits_spec splitter NL (split nl text))
    with (splits := LangChain.split_text_with_regex text nl)
    as (chunks & kept & Hmerge & Hok & Hkept & Hrw).
  - simpl. lia.
  - done.
  - apply Forall_forall. intros d Hd.
    unfold LangChain.split_text_with_regex in Hd.
    by apply list_elem_of_filter in Hd.
  - exists chunks, kept. split_and!; try done.
    rewrite Hrw. unfold LangChain.split_text_with_regex.
    by rewrite join_empty_filter, remove_whitespace_split.
Qed.

(** *** The chunks as runs of lines *)

Lemma len_join_elem sep u l : u ∈ l → len u <= len (join sep l).
Proof.
  induction l as [|s l IH]; [by intros ?%elem_of_nil|].
  intros [->|Hin]%elem_of_cons; [apply len_join_cons|].
  destruct l as [|s' l]; [by apply elem_of_nil in Hin|].
  rewrite (join_cons sep s (s' :: l)), !len_append by done.
  specialize (IH Hin). pose proof (len_nonneg s). pose proof (len_nonneg sep). lia.
Qed.

Lemma last_run_lines_snoc runs r : last_run_lines (runs ++ [r]) = run_lines r.
Proof. unfold last_run_lines. by rewrite last_snoc. Qed.

Lemma overlap_chain_snoc before runs r :
  overlap_chain before runs →
  r.1 `suffix_of` from_option run_lines before (last runs) →
  r.2 ≠ [] →
  overlap_chain before (runs ++ [r]).
Proof.
  revert before. induction runs as [|r0 runs IH]; intros before Hchain Hsuf Hne.
  - simpl in *. done.
  - destruct Hchain as (H0 & Hne0 & Hchain). simpl. split_and!; [done..|].
    apply IH; [done| |done].
    destruct runs as [|r1 runs]; [done|].
    change (last (r0 :: r1 :: runs)) with (last (r1 :: runs)) in Hsuf.
    destruct (last (r1 :: runs)) eqn:Hlast; [exact Hsuf|].
    by apply last_None in Hlast.
Qed.

Lemma emitted_docs docs current_doc sep :
  match LangChain.join_docs current_doc sep with
  | Some doc => docs ++ [doc]
  | None => docs
  end
  = docs ++ filter (λ c, c ≠ "") [strip (join sep current_doc)].
Proof.
  unfold LangChain.join_docs. simpl. rewrite filter_cons, filter_nil.
  destruct (decide (strip (join sep current_doc) = "")) as [Heq|Hne].
  - rewrite decide_False by (by intros ?). by rewrite app_nil_r.
  - by rewrite decide_True.
Qed.

Section splitter_runs.
Import LangChain.
Context (self : CharacterTextSplitter) (sep : string) (units : list string).
Hypothesis overlap_nonneg : 0 <= chunk_overlap self.
Hypothesis sep_whitespace : remove_whitespace sep = "".

(** Emitting [current_doc] closes a run. *)
Lemma emit_run done docs current_doc total :
  merge_inv self sep units done (docs, current_doc, total) →
  runs_inv self sep done (docs, current_doc, total) →
  current_doc ≠ [] →
  ∃ runs,
    match join_docs current_doc sep with
    | Some doc => docs ++ [doc]
    | None => docs
    end = filter (λ c, c ≠ "") (map (run_chunk sep) runs)
    ∧ concat (map snd runs) = done
    ∧ overlap_chain [] runs
    ∧ last_run_lines runs = current_doc
    ∧ Forall (run_fits self sep) runs.
Proof.
  intros (-> & _ & Hsize & _)
    (runs & overlap & fresh & Hcur & Hfresh & Hdocs & Hdone & Hchain & Hov & Hfits)
    Hne.
  exists (runs ++ [(overlap, fresh)]). split_and!.
  - rewrite emitted_docs, map_app, filter_app, Hdocs. simpl.
    unfold run_chunk, run_lines. simpl. by rewrite Hcur.
  - rewrite map_app, concat_app. simpl. by rewrite app_nil_r.
  - apply overlap_chain_snoc; [done|exact Hov|]. simpl. intros ->. auto.
  - rewrite last_run_lines_snoc. by rewrite Hcur.
  - apply Forall_app. split; [done|]. constructor; [|done].
    unfold run_fits, run_lines. simpl. by rewrite <- Hcur.
Qed.

Lemma merge_step_runs done st d :
  merge_inv self sep units done st → runs_inv self sep done st →
  d ≠ "" → d ∈ units →
  ∃ st', merge_step self sep st d = Ok st'
         ∧ merge_inv self sep units (done ++ [d]) st'
         ∧ runs_inv self sep (done ++ [d]) st'.
Proof.
  intros Hinv Hruns Hd Hin.
  destruct (merge_step_inv self sep units overlap_nonneg sep_whitespace
              done st d Hinv Hd Hin) as (st' & Hstep & Hinv').
  exists st'. split_and!; [done..|].
  destruct st as [[docs current_doc] total].
  pose proof Hinv as (Htotal & _). subst total.
  revert Hstep. unfold merge_step.
  destruct (_ >? chunk_size self) eqn:Hover;
    [destruct (0 <? Z.of_nat (length current_doc)) eqn:Hne|].
  - destruct (pop_front_spec self sep overlap_nonneg (len d) current_doc)
      as (rest & Hpop & Hsuf & _).
    unfold mbind, outcome_bind. rewrite Hpop. intros [= <-].
    destruct (emit_run done docs current_doc _ Hinv Hruns)
      as (runs & Hdocs & Hdone & Hchain & Hlast & Hfits).
    { intros ->. simpl in Hne. discriminate. }
    exists runs, rest, [d]. split_and!; try done.
    + by rewrite Hdone.
    + by rewrite Hlast.
  - unfold mbind, outcome_bind. intros [= <-].
    destruct Hruns as (runs & overlap & fresh & Hcur & Hfresh & Hdocs & Hdone
                       & Hchain & Hov & Hfits).
    exists runs, overlap, (fresh ++ [d]). split_and!; try done.
    + by rewrite Hcur, app_assoc.
    + by intros [_ [=]]%app_eq_nil.
    + by rewrite app_assoc, Hdone.
  - unfold mbind, outcome_bind. intros [= <-].
    destruct Hruns as (runs & overlap & fresh & Hcur & Hfresh & Hdocs & Hdone
                       & Hchain & Hov & Hfits).
    exists runs, overlap, (fresh ++ [d]). split_and!; try done.
    + by rewrite Hcur, app_assoc.
    + by intros [_ [=]]%app_eq_nil.
    + by rewrite app_assoc, Hdone.
Qed.

Lemma merge_loop_runs splits done st :
  merge_inv self sep units done st → runs_inv self sep done st →
  Forall (λ d, d ≠ "" ∧ d ∈ units) splits →
  ∃ st', merge_loop self sep splits st = Ok st'
         ∧ merge_inv self sep units (done ++ splits) st'
         ∧ runs_inv self sep (done ++ splits) st'.
Proof.
  intros Hinv Hruns Hsplits. revert done st Hinv Hruns.
  induction Hsplits as [|d splits [Hd Hin] _ IH]; intros done st Hinv Hruns.
  - exists st. by rewrite app_nil_r.
  - destruct (merge_step_runs done st d Hinv Hruns Hd Hin)
      as (st1 & Hstep & Hinv1 & Hruns1).
    destruct (IH _ _ Hinv1 Hruns1) as (st' & Hloop & Hinv' & Hruns').
    exists st'. cbn [merge_loop]. unfold mbind, outcome_bind.
    rewrite Hstep. by rewrite <- app_assoc in Hinv', Hruns'.
Qed.

(** What [_merge_splits] returns, in runs: the chunks are the non-empty
    chunks of the runs, and the new lines of the runs are the splits. *)
Lemma merge_splits_runs splits :
  Forall (λ d, d ≠ "" ∧ d ∈ units) splits →
  ∃ runs,
    merge_splits self splits sep
    = Ok (filter (λ c, c ≠ "") (map (run_chunk sep) runs))
    ∧ concat (map snd runs) = splits
    ∧ overlap_chain [] runs
    ∧ Forall (run_fits self sep) runs.
Proof.
  intros Hsplits.
  destruct (merge_loop_runs splits [] ([], [], 0))
    as ([[docs cur] total] & Hloop & Hinv & Hruns); [| |done|].
  { split_and!; [done|done|right; simpl; lia|done|].
    exists [], []. by split_and!. }
  { exists [], [], []. by split_and!. }
  simpl in Hinv, Hruns.
  unfold merge_splits, mbind, outcome_bind. rewrite Hloop.
  destruct cur as [|u cur].
  - destruct Hruns as (runs & overlap & fresh & Hcur & _ & Hdocs & Hdone & Hchain
                       & _ & Hfits).
    symmetry in Hcur. apply app_eq_nil in Hcur as [-> ->].
    rewrite app_nil_r in Hdone. exists runs.
    unfold join_docs. simpl. by rewrite Hdocs.
  - destruct (emit_run _ _ _ _ Hinv Hruns)
      as (runs & Hdocs & Hdone & Hchain & _ & Hfits); [done|].
    exists runs. split_and!; try done.
    rewrite <- Hdocs. by destruct (join_docs (u :: cur) sep).
Qed.

End splitter_runs.

(** The chunks of a text, run by run. *)
Lemma split_text_runs text :
  ∃ runs,
    LangChain.split_text splitter text
    = Ok (filter (λ c, c ≠ "") (map (run_chunk NL) runs))
    ∧ concat (map snd runs) = filter (λ s, s ≠ "") (split nl text)
    ∧ overlap_chain [] runs
    ∧ Forall (run_fits splitter NL) runs.
Proof.
  apply (merge_splits_runs splitter NL (split nl text)).
  - simpl. lia.
  - done.
  - apply Forall_forall. intros d Hd.
    unfold LangChain.split_text_with_regex in Hd.
    by apply list_elem_of_filter in Hd.
Qed.

(** An oversized line makes a run of its own. *)
Lemma oversized_unit_is_a_chunk runs u :
  Forall (run_fits splitter NL) runs →
  u ∈ concat (map snd runs) →
  500 < len u → strip u ≠ "" →
  strip u ∈ filter (λ c, c ≠ "") (map (run_chunk NL) runs).
Proof.
  intros Hfits Hu Hlen Hstrip.
  apply list_elem_of_In, in_concat in Hu as (fresh & Hfresh & Hu).
  apply in_map_iff in Hfresh as (r & <- & Hr).
  apply list_elem_of_In in Hu, Hr.
  rewrite Forall_forall in Hfits. specialize (Hfits r Hr).
  assert (u ∈ run_lines r) as Hin by (apply elem_of_app; by right).
  apply list_elem_of_filter. split; [done|].
  apply list_elem_of_In, in_map_iff. exists r. split; [|by apply list_elem_of_In].
  unfold run_chunk. destruct Hfits as [Hfit|Hone].
  - pose proof (len_join_elem NL u (run_lines r) Hin). simpl in Hfit. lia.
  - destruct (run_lines r) as [|u' [|??]]; [by apply elem_of_nil in Hin| |simpl in Hone; lia].
    by apply list_elem_of_singleton in Hin as ->.
Qed.

(** C6. On every text the splitter returns a list of chunks, none of
    them the empty string; a chunk longer than 500 characters is one
    newline-delimited unit of the text that is itself longer than 500
    characters, kept in one piece (with the whitespace around it
    stripped, as for every chunk) and not cut at the size; every unit of
    the text that is longer than 500 characters does come out so, as the
    chunk that is the whole unit stripped (unless nothing is left of it
    after the strip); no chunk is cut anywhere: each is a run of whole
    lines, joined by newlines and stripped, that fits the size before
    the strip or is a single line, and every non-empty line of the text
    is new in one run; and the empty text gives no chunk. *)
Theorem chunks_nonempty_and_bounded text :
  (∃ chunks,
     LangChain.split_text splitter text = Ok chunks
     ∧ Forall (λ c, c ≠ ""
                    ∧ (len c <= 500
                       ∨ ∃ u, u ∈ split nl text ∧ 500 < len u ∧ c = strip u))
         chunks
     ∧ (∀ u, u ∈ split nl text → 500 < len u → strip u ≠ "" →
             strip u ∈ chunks)
     ∧ ∃ runs,
         chunks = filter (λ c, c ≠ "") (map (run_chunk NL) runs)
         ∧ concat (map snd runs) = filter (λ s, s ≠ "") (split nl text)
         ∧ Forall (run_fits splitter NL) runs)
  ∧ LangChain.split_text splitter "" = Ok [].
Proof.
  split; [|done].
  destruct (split_text_spec text) as (chunks & _ & Hsplit & Hok & _).
  exists chunks. split_and!; [done..| |].
  - destruct (split_text_runs text) as (runs & Hruns & Hlines & _ & Hfits).
    rewrite Hsplit in Hruns. injection Hruns as ->.
    intros u Hu Hlen Hstrip.
    apply oversized_unit_is_a_chunk; [done| |done..].
    rewrite Hlines. apply list_elem_of_filter. split; [|done].
    intros ->. by vm_compute in Hlen.
  - destruct (split_text_runs text) as (runs & Hruns & Hlines & _ & Hfits).
    rewrite Hsplit in Hruns. injection Hruns as ->. by exists runs.
Qed.

(** C5, as the claim has it, fails: a line with its final newline and
    the same line without it give the same single chunk, which is one
    character shorter than the first document.  The newline is gone, and
    nothing computed from the chunks can tell the two documents apart. *)
Lemma chunking_drops_final_newline :
  LangChain.split_text splitter ("The cat sat." +:+ NL) = Ok ["The cat sat."]
  ∧ LangChain.split_text splitter "The cat sat." = Ok ["The cat sat."]
  ∧ "The cat sat." +:+ NL ≠ "The cat sat."
  ∧ len "The cat sat." < len ("The cat sat." +:+ NL).
Proof. split_and!; [by vm_compute..|by vm_compute]. Qed.

(** C5, amended. Chunking keeps the lines of a document, and loses
    nothing but what lies between and around them.  The document is its
    lines joined by newlines.  The chunks come from runs of lines: every
    run is an overlap, which is a tail of the run before it (none for
    the first run), followed by at least one new line; the new lines of
    the runs, one run after the other, are exactly the non-empty lines
    of the document, in order; and the chunks are the runs, each with
    its lines joined by single newlines and stripped of the whitespace
    at its two ends, a run of which nothing is left after the strip
    giving no chunk.  So concatenating the chunks with the overlaps
    removed gives back every non-empty line, whole and in order, except
    for whitespace at the two ends of a chunk; the empty lines and the
    newlines between one chunk's last line and the next new line are
    what is lost besides.  In particular the new lines of the runs, put
    end to end, have every character of the document that is not
    whitespace, in order. *)
Theorem chunking_keeps_lines text :
  ∃ runs,
    LangChain.split_text splitter text
    = Ok (filter (λ c, c ≠ "") (map (run_chunk NL) runs))
    ∧ join NL (split nl text) = text
    ∧ concat (map snd runs) = filter (λ s, s ≠ "") (split nl text)
    ∧ overlap_chain [] runs
    ∧ remove_whitespace (join "" (concat (map snd runs)))
      = remove_whitespace text.
Proof.
  destruct (split_text_runs text) as (runs & Hruns & Hlines & Hchain & _).
  exists runs. split_and!; [done| |done..|].
  - apply join_split.
  - by rewrite Hlines, join_empty_filter, remove_whitespace_split.
Qed.

Example split_cat_dog :
  LangChain.split_text splitter cat_dog = Ok [cat_dog_chunk].
Proof. vm_compute. reflexivity. Qed.

Example split_empty : LangChain.split_text splitter "" = Ok [].
Proof. vm_compute. reflexivity. Qed.

(** The loop at work on a small splitter: chunks of at most ten
    characters that overlap by at most four. *)
Example split_with_overlap :
  LangChain.split_text
    {| LangChain.separator := nl; LangChain.chunk_size := 10;
       LangChain.chunk_overlap := 4 |}
    ("aaa" +:+ NL +:+ "bbb" +:+ NL +:+ "ccc" +:+ NL +:+ "ddd")
  = Ok ["aaa" +:+ NL +:+ "bbb"; "bbb" +:+ NL +:+ "ccc"; "ccc" +:+ NL +:+ "ddd"].
Proof. vm_compute. reflexivity. Qed.

(** A unit larger than the size is emitted as it is, without the
    whitespace around it. *)
Example split_oversized_unit :
  LangChain.split_text
    {| LangChain.separator := nl; LangChain.chunk_size := 10;
       LangChain.chunk_overlap := 4 |}
    ("aa" +:+ NL +:+ "  0123456789abcdef " +:+ NL +:+ "bb")
  = Ok ["aa"; "0123456789abcdef"; "bb"].
Proof. vm_compute. reflexivity. Qed.

(** ** The index *)

Section faiss_facts.
Import Faiss.

Lemma insert_nearest_perm p l : insert_nearest p l ≡ₚ p :: l.
Proof.
  induction l as [|h t IH]; simpl; [done|].
  destruct (Qle_bool (snd p) (snd h)); [done|].
  rewrite IH. apply Permutation_swap.
Qed.

Lemma sort_nearest_perm l : sort_nearest l ≡ₚ l.
Proof.
  induction l as [|p l IH]; simpl; [done|].
  by rewrite insert_nearest_perm, IH.
Qed.

Lemma insert_nearest_sorted p l :
  StronglySorted nearer l → StronglySorted nearer (insert_nearest p l).
Proof.
  induction 1 as [|h t Ht IH Hh]; simpl.
  - repeat constructor.
  - destruct (Qle_bool (snd p) (snd h)) eqn:Hle.
    + apply Qle_bool_iff in Hle.
      constructor; [by constructor|]. constructor; [done|].
      eapply Forall_impl; [exact Hh|]. intros x Hx.
      unfold nearer in *. by apply Qle_trans with (snd h).
    + constructor; [done|].
      rewrite insert_nearest_perm. constructor; [|done].
      unfold nearer. apply Qlt_le_weak, Qnot_le_lt.
      rewrite <- Qle_bool_iff. by rewrite Hle.
Qed.

Lemma sort_nearest_sorted l : StronglySorted nearer (sort_nearest l).
Proof.
  induction l as [|p l IH]; simpl; [constructor|].
  by apply insert_nearest_sorted.
Qed.

(** The part of a result row that vectors fill. *)
Lemma nearest_spec index q k :
  let best := take k (sort_nearest (distances index q)) in
  length best = Nat.min k (ntotal index)
  ∧ StronglySorted nearer best
  ∧ Forall (λ p, ∃ i v, xb index !! i = Some v
                        ∧ p = (Z.of_nat i, fvec_L2sqr q v)) best.
Proof.
  simpl. split_and!.
  - rewrite length_take, sort_nearest_perm. unfold distances, ntotal.
    by rewrite length_imap.
  - pose proof (sort_nearest_sorted (distances index q)) as Hs.
    rewrite <- (take_drop k) in Hs. by apply StronglySorted_app_1_l in Hs.
  - apply Forall_forall. intros p Hp.
    apply elem_of_take in Hp as (j & Hj & _).
    apply list_elem_of_lookup_2 in Hj.
    rewrite sort_nearest_perm in Hj. unfold distances in Hj.
    apply elem_of_lookup_imap in Hj as (i & v & -> & Hv). eauto.
Qed.

Lemma search_one_query index q k :
  0 < k → length q = d index →
  search index [q] k
  = Ok ([map snd (search_row index (Z.to_nat k) q)],
        [map fst (search_row index (Z.to_nat k) q)]).
Proof.
  intros Hk Hq. unfold search. simpl.
  rewrite Hq, Nat.eqb_refl. simpl.
  by destruct (Z.ltb_spec 0 k); [|lia].
Qed.

End faiss_facts.

(** ** The index in float32 *)

Section faiss_float_facts.
Import Faiss.
Context (dis : FaissFloat.kernel).

Lemma elem_of_candidates index q p :
  p ∈ FaissFloat.candidates dis index q
  ↔ ∃ i v, xb index !! i = Some v ∧ p.1 = Z.of_nat i
           ∧ dis q v = Some p.2 ∧ (p.2 < FLT_MAX)%Q.
Proof.
  unfold FaissFloat.candidates. rewrite list_elem_of_omap. split.
  - intros (x & Hx & Hp).
    apply elem_of_lookup_imap in Hx as (i & v & -> & Hv). simpl in Hp.
    destruct (dis q v) as [dv|] eqn:Hdis; [|done].
    destruct (Qle_bool FLT_MAX dv) eqn:Hle; [done|].
    injection Hp as <-. exists i, v. split_and!; [done..|]. simpl.
    apply Qnot_le_lt. rewrite <- Qle_bool_iff. by rewrite Hle.
  - intros (i & v & Hv & Hi & Hdis & Hlt). exists (Z.of_nat i, dis q v). split.
    + by apply (elem_of_lookup_imap_2 (λ i v, (Z.of_nat i, dis q v))).
    + simpl. rewrite Hdis.
      destruct (Qle_bool FLT_MAX p.2) eqn:Hle.
      * apply Qle_bool_iff in Hle. by apply Qlt_not_le in Hlt.
      * destruct p as [j dp]. simpl in *. by rewrite Hi.
Qed.

Lemma candidates_labels index q :
  (FaissFloat.candidates dis index q).*1
  `sublist_of` Z.of_nat <$> seq 0 (ntotal index).
Proof.
  unfold FaissFloat.candidates, ntotal.
  rewrite <- (imap_seq_0 (xb index) Z.of_nat).
  rewrite <- (imap_ext (λ i v, (Z.of_nat i, dis q v).1) (λ i _, Z.of_nat i))
    by done.
  change (λ i v, (Z.of_nat i, dis q v).1)
    with (λ i, fst ∘ (λ v, (Z.of_nat i, dis q v))).
  rewrite <- (fmap_imap (λ i v, (Z.of_nat i, dis q v)) fst).
  generalize (imap (λ i v, (Z.of_nat i, dis q v)) (xb index)).
  intros l. induction l as [|[i [dv|]] l IH]; simpl; [done| |by constructor].
  destruct (Qle_bool FLT_MAX dv); by constructor.
Qed.

Lemma candidates_NoDup index q :
  NoDup (FaissFloat.candidates dis index q).*1.
Proof.
  eapply sublist_NoDup; [|apply candidates_labels].
  apply NoDup_fmap_2; [apply _|apply NoDup_seq].
Qed.

Lemma candidates_length index q :
  (length (FaissFloat.candidates dis index q) ≤ ntotal index)%nat.
Proof.
  pose proof (sublist_length _ _ (candidates_labels index q)) as Hlen.
  by rewrite !length_fmap, length_seq in Hlen.
Qed.

(** When every distance comes out finite and below [FLT_MAX], every
    vector is a candidate. *)
Lemma candidates_all index q :
  (∀ v, v ∈ xb index → ∃ dv, dis q v = Some dv ∧ (dv < FLT_MAX)%Q) →
  length (FaissFloat.candidates dis index q) = ntotal index.
Proof.
  intros Hall. unfold FaissFloat.candidates, ntotal.
  rewrite <- (length_imap (λ i v, (Z.of_nat i, dis q v)) (xb index)).
  assert (Forall (λ p, ∃ dv, p.2 = Some dv ∧ (dv < FLT_MAX)%Q)
            (imap (λ i v, (Z.of_nat i, dis q v)) (xb index))) as Hl.
  { apply Forall_forall. intros p (i & v & -> & Hv)%elem_of_lookup_imap.
    apply Hall. by eapply list_elem_of_lookup_2. }
  induction Hl as [|p l (dv & Hp & Hlt) _ IH]; simpl; [done|].
  rewrite Hp. destruct (Qle_bool FLT_MAX dv) eqn:Hle.
  - apply Qle_bool_iff in Hle. by apply Qlt_not_le in Hlt.
  - simpl. f_equal. exact IH.
Qed.

(** The part of a result row that vectors fill: the candidates of least
    computed distance. *)
Lemma float_nearest_spec index q k :
  let best := take k (sort_nearest (FaissFloat.candidates dis index q)) in
  (length best ≤ Nat.min k (ntotal index))%nat
  ∧ ((∀ v, v ∈ xb index → ∃ dv, dis q v = Some dv ∧ (dv < FLT_MAX)%Q) →
     length best = Nat.min k (ntotal index))
  ∧ StronglySorted nearer best
  ∧ NoDup best.*1
  ∧ (∀ p, p ∈ best →
          ∃ i v, xb index !! i = Some v ∧ p.1 = Z.of_nat i
                 ∧ dis q v = Some p.2 ∧ (p.2 < FLT_MAX)%Q)
  ∧ (∀ i v dv, xb index !! i = Some v → dis q v = Some dv →
               (dv < FLT_MAX)%Q →
               (Z.of_nat i, dv) ∈ best
               ∨ (length best = k ∧ ∀ p, p ∈ best → (p.2 <= dv)%Q)).
Proof.
  simpl.
  pose proof (sort_nearest_sorted (FaissFloat.candidates dis index q)) as Hs.
  pose proof (sort_nearest_perm (FaissFloat.candidates dis index q)) as Hperm.
  pose proof (candidates_length index q) as Hlen.
  rewrite <- Hperm in Hlen.
  split_and!.
  - rewrite length_take. lia.
  - intros Hall. rewrite length_take, Hperm. by rewrite candidates_all.
  - rewrite <- (take_drop k) in Hs. by apply StronglySorted_app_1_l in Hs.
  - eapply sublist_NoDup; [|apply fmap_sublist, sublist_take].
    rewrite Hperm. apply candidates_NoDup.
  - intros p Hp. apply elem_of_candidates. rewrite <- Hperm.
    by eapply elem_of_sublist; [|apply sublist_take].
  - intros i v dv Hv Hdis Hlt.
    assert ((Z.of_nat i, dv) ∈ sort_nearest (FaissFloat.candidates dis index q))
      as Hin.
    { rewrite Hperm. apply elem_of_candidates. by exists i, v. }
    rewrite <- (take_drop k) in Hin, Hs.
    apply elem_of_app in Hin as [Hin|Hin]; [by left|right]. split.
    + apply length_take_le.
      destruct (decide (k ≤ length (sort_nearest
                                      (FaissFloat.candidates dis index q))))%nat;
        [done|].
      rewrite drop_ge in Hin by lia. by apply elem_of_nil in Hin.
    + intros p Hp.
      apply (StronglySorted_app_1_elem_of _ _ _ _ _ Hs Hp Hin).
Qed.

Lemma float_search_one_query index q k :
  0 < k → length q = d index →
  FaissFloat.search dis index [q] k
  = Ok ([map snd (FaissFloat.search_row dis index (Z.to_nat k) q)],
        [map fst (FaissFloat.search_row dis index (Z.to_nat k) q)]).
Proof.
  intros Hk Hq. unfold FaissFloat.search. simpl.
  rewrite Hq, Nat.eqb_refl. simpl.
  by destruct (Z.ltb_spec 0 k); [|lia].
Qed.


End faiss_float_facts.

(** With exact arithmetic, and all distances below [FLT_MAX], the two
    descriptions of the index agree. *)
Lemma float_search_exact index x k :
  (∀ q v, q ∈ x → v ∈ Faiss.xb index →
          (Faiss.fvec_L2sqr q v < Faiss.FLT_MAX)%Q) →
  FaissFloat.search FaissFloat.exact index x k = Faiss.search index x k.
Proof.
  intros Hlt. unfold FaissFloat.search, Faiss.search.
  destruct (negb _); [done|]. destruct (negb _); [done|].
  assert (map (FaissFloat.search_row FaissFloat.exact index (Z.to_nat k)) x
          = map (Faiss.search_row index (Z.to_nat k)) x) as ->; [|done].
  apply map_ext_in. intros q Hq%list_elem_of_In.
  unfold FaissFloat.search_row, Faiss.search_row.
  assert (FaissFloat.candidates FaissFloat.exact index q
          = Faiss.distances index q) as ->; [|done].
  unfold FaissFloat.candidates, Faiss.distances, FaissFloat.exact.
  assert (∀ v, v ∈ Faiss.xb index → (Faiss.fvec_L2sqr q v < Faiss.FLT_MAX)%Q)
    as Hall by auto.
  clear Hlt Hq. revert Hall.
  assert (∀ (f : nat → Z) l,
            (∀ v, v ∈ l → (Faiss.fvec_L2sqr q v < Faiss.FLT_MAX)%Q) →
            omap (λ p : Z * option Q,
                    match p.2 with
                    | Some d => if Qle_bool Faiss.FLT_MAX d then None
                                else Some (p.1, d)
                    | None => None
                    end)
              (imap (λ i v, (f i, Some (Faiss.fvec_L2sqr q v))) l)
            = imap (λ i v, (f i, Faiss.fvec_L2sqr q v)) l) as Hgen;
    [|apply (Hgen Z.of_nat)].
  intros f l. revert f. induction l as [|v l IH]; intros f Hall; [done|].
  rewrite !imap_cons. cbn [omap list_omap fst snd].
  destruct (Qle_bool Faiss.FLT_MAX (Faiss.fvec_L2sqr q v)) eqn:Hle.
  - apply Qle_bool_iff in Hle.
    exfalso. eapply Qlt_not_le; [|exact Hle]. apply Hall. by left.
  - f_equal. apply (IH (f ∘ S)). intros v' Hv'. apply Hall. by right.
Qed.


Example search_empty_index :
  Faiss.search (Faiss.new 2) [[0; 0]%Q] 3
  = Ok ([[Faiss.FLT_MAX; Faiss.FLT_MAX; Faiss.FLT_MAX]], [[-1; -1; -1]]).
Proof. vm_compute. reflexivity. Qed.

Example search_k_zero :
  Faiss.search {| Faiss.d := 2; Faiss.xb := [[1; 0]%Q] |} [[0; 0]%Q] 0
  = Raise AssertionError.
Proof. reflexivity. Qed.

Example search_three_of_four :
  ∃ D, Faiss.search
         {| Faiss.d := 1; Faiss.xb := [[5]; [1]; [-1]; [2]]%Q |} [[0]%Q] 3
       = Ok (D, [[1; 2; 3]]).
Proof. eexists. vm_compute. reflexivity. Qed.




(** When at least [k] vectors are indexed no slot is left over, and
    every label of the row is a position of the index. *)
Lemma search_labels_in_range index q k :
  0 < k → length q = Faiss.d index →
  (Z.to_nat k ≤ Faiss.ntotal index)%nat →
  ∃ D row, Faiss.search index [q] k = Ok (D, [row])
           ∧ Forall (λ i, 0 <= i < Z.of_nat (Faiss.ntotal index)) row.
Proof.
  intros Hk Hq Hfull.
  destruct (nearest_spec index q (Z.to_nat k)) as (Hlen & _ & Hbest).
  rewrite search_one_query by done. eexists _, _. split; [done|].
  unfold Faiss.search_row. rewrite Hlen.
  replace (Z.to_nat k - _)%nat with 0%nat by lia.
  rewrite app_nil_r. apply Forall_fmap.
  eapply Forall_impl; [exact Hbest|].
  intros p (i & v & Hv & ->). simpl.
  apply lookup_lt_Some in Hv. unfold Faiss.ntotal. lia.
Qed.

(** ** The handlers and the state *)

Ltac unfold_handler :=
  unfold mbind, mret, handler_bind, handler_ret, outcome_bind, outcome_ret,
    lift, get_state, set_vector_store, set_user_credentials in *;
  simpl in *.

Section handler_facts.
Context (model : SentenceTransformer).

Lemma add_encoded chunks c :
  Faiss.add (Faiss.new (length (embed model c))) (encode model chunks)
  = Ok {| Faiss.d := dimension model; Faiss.xb := map (embed model) chunks |}.
Proof.
  unfold Faiss.add, Faiss.new, encode. simpl.
  rewrite embed_dimension.
  replace (forallb _ _) with true; [done|].
  symmetry. apply forallb_forall. intros v Hv.
  apply in_map_iff in Hv as (s & <- & _).
  rewrite embed_dimension. apply Nat.eqb_refl.
Qed.

(** An ingestion either leaves the state as it was and does not answer
    200, or it answers 200 after every fetch succeeded and puts a fresh
    store with at least one chunk under the user's key. *)
Lemma ingest_docs_cases api doc_ids st :
  let r := ingest_docs model api doc_ids st in
  (succeeded r.1 = false ∧ r.2 = st)
  ∨ (∃ chunks,
       chunks ≠ []
       ∧ Forall (λ doc_id, ∃ doc, documents_get api doc_id = Ok doc) doc_ids
       ∧ r.1 = Ok (JSONResponse
                     [("message",
                       JStr (pretty (length chunks)
                             +:+ " chunks ingested and indexed for RAG."))] 200)
       ∧ r.2 = {| USER_CREDENTIALS := USER_CREDENTIALS st;
                  VECTOR_STORE :=
                    <["default_user" :=
                        {| index := {| Faiss.d := dimension model;
                                       Faiss.xb := map (embed model) chunks |};
                           texts := chunks |}]> (VECTOR_STORE st) |}).
Proof.
  unfold ingest_docs, get_credentials_for_user. unfold_handler.
  destruct (USER_CREDENTIALS st !! "default_user") as [creds|]; [|by left].
  destruct (build api) as [[]|e]; [|by left].
  destruct (omapM _ doc_ids) as [all_chunks|e] eqn:Hfetch; [|by left].
  destruct (omapM _ all_chunks) as [pieces|e] eqn:Hsplit; [|by left].
  simpl. destruct (concat pieces) as [|c chunks] eqn:Hchunks; [by left|].
  simpl. change (embed model c :: encode model chunks)
    with (encode model (c :: chunks)).
  rewrite add_encoded. right. exists (c :: chunks).
  split_and!; try done.
  apply omapM_Ok in Hfetch. clear -Hfetch.
  induction Hfetch as [|doc_id text ?? H _ IH]; constructor; [|done].
  destruct (documents_get api doc_id); [eauto|discriminate].
Qed.

(** What a handler other than a successful ingestion does to the
    vector stores: nothing. *)
Lemma chat_query_state query st : (chat_query model query st).2 = st.
Proof.
  unfold chat_query. unfold_handler.
  destruct (VECTOR_STORE st !! "default_user") as [s|]; [|done].
  destruct (Faiss.search _ _ _) as [[D I_]|]; [|done]. simpl.
  destruct (py_index I_ 0); [|done].
  by destruct (omapM _ _).
Qed.

Lemma list_docs_state api st : (list_docs api st).2 = st.
Proof.
  unfold list_docs, get_credentials_for_user. unfold_handler.
  destruct (USER_CREDENTIALS st !! "default_user"); [|done].
  by destruct (match build api with Ok _ => _ | Raise e => Raise e end).
Qed.

Lemma fetch_doc_state api doc_id st :
  (fetch_doc api doc_id st).2 = st.
Proof.
  unfold fetch_doc, get_credentials_for_user. unfold_handler.
  destruct (USER_CREDENTIALS st !! "default_user"); [|done].
  destruct (build api) as [[]|]; [|done].
  destruct (documents_get api doc_id) as [doc|]; [|done].
  destruct (extract_text doc); [|done].
  destruct (py_get doc "documentId" JNull); [|done].
  by destruct (py_get doc "title" JNull).
Qed.

Lemma oauth2callback_store flow st :
  VECTOR_STORE (oauth2callback flow st).2 = VECTOR_STORE st.
Proof. by destruct flow. Qed.

Lemma handle_store r st :
  VECTOR_STORE (handle model r st).2 = VECTOR_STORE st
  ∨ (is_ingest r = true ∧ succeeded (handle model r st).1 = true
     ∧ ∃ chunks,
         chunks ≠ []
         ∧ VECTOR_STORE (handle model r st).2
           = <["default_user" :=
                 {| index := {| Faiss.d := dimension model;
                                Faiss.xb := map (embed model) chunks |};
                    texts := chunks |}]> (VECTOR_STORE st)).
Proof.
  destruct r as [flow|api|api doc_id|api doc_ids|query]; simpl.
  - left. apply oauth2callback_store.
  - left. by rewrite list_docs_state.
  - left. by rewrite fetch_doc_state.
  - destruct (ingest_docs_cases api doc_ids st)
      as [[_ ->]|(chunks & ? & _ & -> & ->)]; [by left|].
    right. split_and!; try done. by exists chunks.
  - left. by rewrite chat_query_state.
Qed.

Lemma store_inv_encoded chunks :
  store_inv model
    {| index := {| Faiss.d := dimension model;
                   Faiss.xb := map (embed model) chunks |};
       texts := chunks |}.
Proof.
  split; simpl.
  - unfold Faiss.ntotal. simpl. by rewrite length_map.
  - intros i t Ht. by rewrite list_lookup_fmap, Ht.
Qed.

End handler_facts.

Lemma serve_keeps_store_absent model rs st :
  VECTOR_STORE st !! "default_user" = None →
  ingested model rs st = false →
  VECTOR_STORE (serve model rs st) !! "default_user" = None.
Proof.
  revert st. induction rs as [|r rs IH]; intros st Hnone Hno; simpl in *; [done|].
  apply orb_false_iff in Hno as [Hr Hrs].
  apply IH; [|done].
  destruct (handle_store model r st) as [->|(Hi & Hs & _)]; [done|].
  rewrite Hi, Hs in Hr. discriminate.
Qed.

Lemma serve_keeps_store_inv model rs st :
  (∃ s, VECTOR_STORE st !! "default_user" = Some s ∧ store_inv model s) →
  ∃ s, VECTOR_STORE (serve model rs st) !! "default_user" = Some s
       ∧ store_inv model s.
Proof.
  revert st. induction rs as [|r rs IH]; intros st Hst; simpl; [done|].
  apply IH.
  destruct (handle_store model r st) as [->|(_ & _ & chunks & _ & ->)]; [done|].
  eexists. split; [apply lookup_insert_eq|apply store_inv_encoded].
Qed.

(** C2. Ingestion is all or nothing for the state.  If the fetch of one
    of the requested documents fails, the call does not succeed and it
    leaves the whole state, the session's vector store included, exactly
    as it found it; and if the call changed the vector stores, then the
    fetch of every requested document succeeded. *)
Theorem ingestion_is_atomic model api doc_ids st :
  ((∃ doc_id e, doc_id ∈ doc_ids ∧ documents_get api doc_id = Raise e) →
   succeeded (ingest_docs model api doc_ids st).1 = false
   ∧ (ingest_docs model api doc_ids st).2 = st
   ∧ VECTOR_STORE (ingest_docs model api doc_ids st).2 !! "default_user"
     = VECTOR_STORE st !! "default_user")
  ∧ (VECTOR_STORE (ingest_docs model api doc_ids st).2 ≠ VECTOR_STORE st →
     Forall (λ doc_id, ∃ doc, documents_get api doc_id = Ok doc) doc_ids).
Proof.
  destruct (ingest_docs_cases model api doc_ids st)
    as [[Hfail Hst]|(chunks & _ & Hall & _)].
  - split; [|by rewrite Hst]. intros _. by rewrite Hst.
  - split; [|done]. intros (doc_id & e & Hin & Hraise).
    rewrite Forall_forall in Hall.
    destruct (Hall _ Hin) as [doc Hdoc]. congruence.
Qed.

Lemma ingestion_is_atomic_witness :
  succeeded (ingest_docs toy_model docs_service ["catdog"; "missing"]
               (ingest_docs toy_model docs_service ["fox"] logged_in).2).1 = false
  ∧ (ingest_docs toy_model docs_service ["catdog"; "missing"]
       (ingest_docs toy_model docs_service ["fox"] logged_in).2).2
    = (ingest_docs toy_model docs_service ["fox"] logged_in).2
  ∧ VECTOR_STORE
      (ingest_docs toy_model docs_service ["catdog"; "missing"]
         (ingest_docs toy_model docs_service ["fox"] logged_in).2).2
      !! "default_user"
    = VECTOR_STORE (ingest_docs toy_model docs_service ["fox"] logged_in).2
        !! "default_user".
Proof.
  apply (proj1 (ingestion_is_atomic toy_model docs_service ["catdog"; "missing"]
                  (ingest_docs toy_model docs_service ["fox"] logged_in).2)).
  exists "missing", HttpError. split.
  - apply list_elem_of_In. simpl. auto.
  - reflexivity.
Defined.

(** C4. After a successful ingestion, and after any requests served
    since, the session has a vector store whose index holds as many
    vectors as the store has chunk texts, the vector at every position
    being the embedding of the chunk text at that position. *)
Theorem store_invariant_after_ingestion model api doc_ids st rs :
  succeeded (ingest_docs model api doc_ids st).1 = true →
  ∃ s, VECTOR_STORE (serve model rs (ingest_docs model api doc_ids st).2)
         !! "default_user" = Some s
       ∧ Faiss.ntotal (index s) = length (texts s)
       ∧ ∀ i t, texts s !! i = Some t →
                Faiss.xb (index s) !! i = Some (embed model t).
Proof.
  intros Hok. apply serve_keeps_store_inv.
  destruct (ingest_docs_cases model api doc_ids st)
    as [[Hfail _]|(chunks & _ & _ & _ & ->)]; [congruence|].
  eexists. split; [apply lookup_insert_eq|apply store_inv_encoded].
Qed.

Lemma store_invariant_after_ingestion_witness :
  ∃ s, VECTOR_STORE
         (serve toy_model
            [ChatQuery "cat"; Ingest docs_service ["missing"]; ChatQuery "dog"]
            (ingest_docs toy_model docs_service ["catdog"; "fox"] logged_in).2)
         !! "default_user" = Some s
       ∧ Faiss.ntotal (index s) = length (texts s)
       ∧ ∀ i t, texts s !! i = Some t →
                Faiss.xb (index s) !! i = Some (embed toy_model t).
Proof.
  apply (store_invariant_after_ingestion
           toy_model docs_service ["catdog"; "fox"] logged_in).
  vm_compute. reflexivity.
Defined.

(** C8. A chat query that arrives before any ingestion has succeeded is
    answered, not raised: the answer is the 400 response with the error
    message, and the state stays as it is.  The answer cannot be taken
    for another one: [chat_query] answers 400 only when the session has
    no vector store. *)
Theorem query_before_ingestion model rs query :
  ingested model rs initial_state = false →
  chat_query model query (serve model rs initial_state)
  = (Ok (JSONResponse
           [("error", JStr "No documents ingested yet. Use /ingest first.")] 400),
     serve model rs initial_state)
  ∧ ∀ st r, (chat_query model query st).1 = Ok r →
            status_code r = 400 →
            VECTOR_STORE st !! "default_user" = None.
Proof.
  intros Hno. split.
  - pose proof (serve_keeps_store_absent model rs initial_state
                  (lookup_empty _) Hno) as Hnone.
    unfold chat_query. unfold_handler. by rewrite Hnone.
  - intros st r. unfold chat_query. unfold_handler.
    destruct (VECTOR_STORE st !! "default_user") as [s|]; [|done].
    destruct (Faiss.search _ _ _) as [[D I_]|]; [|done]. simpl.
    destruct (py_index I_ 0); [|done].
    destruct (omapM _ _); [|done].
    simpl. intros [= <-]. done.
Qed.

Lemma query_before_ingestion_witness :
  chat_query toy_model "cat"
    (serve toy_model
       [ChatQuery "dog"; Ingest docs_service ["catdog"];
        OAuthCallback (Ok some_credentials); Ingest docs_service ["missing"]]
       initial_state)
  = (Ok (JSONResponse
           [("error", JStr "No documents ingested yet. Use /ingest first.")] 400),
     serve toy_model
       [ChatQuery "dog"; Ingest docs_service ["catdog"];
        OAuthCallback (Ok some_credentials); Ingest docs_service ["missing"]]
       initial_state)
  ∧ ∀ st r, (chat_query toy_model "cat" st).1 = Ok r →
            status_code r = 400 →
            VECTOR_STORE st !! "default_user" = None.
Proof.
  apply (query_before_ingestion toy_model). vm_compute. reflexivity.
Defined.

(** C9. A chat query reads the state and never writes it: whatever the
    starting state and the query, and whether the handler returns a
    response or raises, the state after the call is the state before
    it. *)
Theorem chat_query_read_only model query st :
  (chat_query model query st).2 = st
  ∧ ∀ key, VECTOR_STORE (chat_query model query st).2 !! key
           = VECTOR_STORE st !! key.
Proof.
  assert ((chat_query model query st).2 = st) as H by apply chat_query_state.
  split; [done|]. intros key. by rewrite H.
Qed.

Example list_docs_logged_in :
  (list_docs docs_service logged_in).1
  = Ok (JSONResponse
          [("documents",
            JList [JDict [("id", JStr "catdog"); ("name", JStr "Cat and dog")];
                   JDict [("id", JStr "fox"); ("name", JStr "Fox")]])] 200).
Proof. vm_compute. reflexivity. Qed.

Example ingest_cat_dog_response :
  fst (ingest_docs toy_model docs_service ["catdog"] logged_in)
  = Ok (JSONResponse [("message", JStr "1 chunks ingested and indexed for RAG.")] 200).
Proof. vm_compute. reflexivity. Qed.

Example chat_after_cat_dog :
  fst (chat_query toy_model "cat"
         (snd (ingest_docs toy_model docs_service ["catdog"] logged_in)))
  = Ok (JSONResponse
          [("query", JStr "cat");
           ("response", JStr (cat_dog_chunk +:+ NL +:+ "---" +:+ NL +:+
                              cat_dog_chunk +:+ NL +:+ "---" +:+ NL +:+
                              cat_dog_chunk))] 200).
Proof. vm_compute. reflexivity. Qed.

(** ** Ingestion and query on a store that is shorter than [k] *)

Lemma ingest_docs_success model api doc_ids st creds all_chunks pieces :
  USER_CREDENTIALS st !! "default_user" = Some creds →
  build api = Ok () →
  omapM (λ doc_id, doc ← documents_get api doc_id; extract_text doc) doc_ids
  = Ok all_chunks →
  omapM (LangChain.split_text splitter) all_chunks = Ok pieces →
  concat pieces ≠ [] →
  ingest_docs model api doc_ids st
  = (Ok (JSONResponse
           [("message",
             JStr (pretty (length (concat pieces))
                   +:+ " chunks ingested and indexed for RAG."))] 200),
     {| USER_CREDENTIALS := USER_CREDENTIALS st;
        VECTOR_STORE :=
          <["default_user" :=
              {| index := {| Faiss.d := dimension model;
                             Faiss.xb := map (embed model) (concat pieces) |};
                 texts := concat pieces |}]> (VECTOR_STORE st) |}).
Proof.
  intros Hcreds Hbuild Hfetch Hsplit Hne.
  unfold ingest_docs, get_credentials_for_user. unfold_handler.
  rewrite Hcreds, Hbuild, Hfetch, Hsplit. simpl.
  destruct (concat pieces) as [|c chunks]; [done|]. simpl.
  change (embed model c :: encode model chunks) with (encode model (c :: chunks)).
  by rewrite add_encoded.
Qed.

(** With one chunk in the store, the search for the three nearest
    returns the labels [0; -1; -1], and the handler reads [texts[0]],
    [texts[-1]], [texts[-1]]: the one chunk, three times. *)
Lemma chat_query_single_chunk model query c st :
  VECTOR_STORE st !! "default_user"
  = Some {| index := {| Faiss.d := dimension model;
                        Faiss.xb := [embed model c] |};
            texts := [c] |} →
  chat_query model query st
  = (Ok (JSONResponse
           [("query", JStr query);
            ("response", JStr (join (NL +:+ "---" +:+ NL) [c; c; c]))] 200),
     st).
Proof.
  intros Hstore. unfold chat_query. unfold_handler. rewrite Hstore.
  unfold encode. simpl.
  rewrite search_one_query; [done|lia|apply embed_dimension].
Qed.

(** C1, at a store of one chunk. The search returns the positions
    [0; -1; -1]: the position [-1] is not an index into the one-element
    sequence of texts, the read [texts[-1]] wraps around to its last
    element, and the response carries the chunk three times. *)
Theorem chat_query_short_store_wraps_around model query c :
  let s := {| index := {| Faiss.d := dimension model;
                          Faiss.xb := [embed model c] |};
              texts := [c] |} in
  let st := {| USER_CREDENTIALS := ∅;
               VECTOR_STORE := {["default_user" := s]} |} in
  store_inv model s
  ∧ (∃ D, Faiss.search (index s) (encode model [query]) 3 = Ok (D, [[0; -1; -1]]))
  ∧ ¬ (0 <= -1 < Z.of_nat (length (texts s)))
  ∧ py_index (texts s) (-1) = Ok c
  ∧ (chat_query model query st).1
    = Ok (JSONResponse
            [("query", JStr query);
             ("response", JStr (join (NL +:+ "---" +:+ NL) [c; c; c]))] 200).
Proof.
  simpl. split_and!.
  - apply (store_inv_encoded model [c]).
  - eexists. unfold encode. simpl.
    rewrite search_one_query; [done|lia|apply embed_dimension].
  - lia.
  - done.
  - rewrite (chat_query_single_chunk model query c); [done|].
    apply lookup_singleton_eq.
Qed.

(** C7, as the code runs it. Ingesting the one document yields one chunk
    (the two lines joined by a single newline); the query that follows is
    answered with that chunk three times, separated by the display
    separator, and not with the chunk once. *)
Theorem cat_dog_query_repeats_chunk model :
  (ingest_docs model docs_service ["catdog"] logged_in).1
  = Ok (JSONResponse
          [("message", JStr "1 chunks ingested and indexed for RAG.")] 200)
  ∧ (texts <$> VECTOR_STORE (ingest_docs model docs_service ["catdog"] logged_in).2
                 !! "default_user") = Some [cat_dog_chunk]
  ∧ (chat_query model "cat"
       (ingest_docs model docs_service ["catdog"] logged_in).2).1
    = Ok (JSONResponse
            [("query", JStr "cat");
             ("response",
              JStr (cat_dog_chunk +:+ NL +:+ "---" +:+ NL +:+
                    cat_dog_chunk +:+ NL +:+ "---" +:+ NL +:+
                    cat_dog_chunk))] 200).
Proof.
  rewrite (ingest_docs_success model docs_service ["catdog"] logged_in
             some_credentials [cat_dog] [[cat_dog_chunk]]);
    [|by vm_compute..].
  simpl. split_and!.
  - done.
  - by rewrite lookup_insert_eq.
  - rewrite (chat_query_single_chunk model "cat" cat_dog_chunk);
      [done|apply lookup_insert_eq].
Qed.

(** The same with two chunks in the store: the third label is [-1], and
    the chunk at the end of [texts] is returned a second time. *)
Example chat_two_chunks :
  (texts <$> VECTOR_STORE
               (ingest_docs toy_model docs_service ["catdog"; "fox"] logged_in).2
               !! "default_user")
  = Some [cat_dog_chunk; "The quick brown fox."]
  ∧ (chat_query toy_model "fox"
       (ingest_docs toy_model docs_service ["catdog"; "fox"] logged_in).2).1
    = Ok (JSONResponse
            [("query", JStr "fox");
             ("response",
              JStr ("The quick brown fox." +:+ NL +:+ "---" +:+ NL +:+
                    cat_dog_chunk +:+ NL +:+ "---" +:+ NL +:+
                    "The quick brown fox."))] 200).
Proof. split; vm_compute; reflexivity. Qed.

(* ===================================================================== *)
(** * Part III: further properties of the handlers                        *)
(* ===================================================================== *)

(** ** Who is logged in *)

(** A handler leaves the credentials alone, unless it is the callback of
    a token exchange that succeeded. *)
Lemma handle_credentials model r st :
  USER_CREDENTIALS (handle model r st).2 = USER_CREDENTIALS st
  ∨ ∃ creds, r = OAuthCallback (Ok creds)
             ∧ USER_CREDENTIALS (handle model r st).2
               = <["default_user" := creds]> (USER_CREDENTIALS st).
Proof.
  destruct r as [[creds|e]|api|api doc_id|api doc_ids|query]; simpl.
  - right. by exists creds.
  - by left.
  - left. by rewrite list_docs_state.
  - left. by rewrite fetch_doc_state.
  - left. by destruct (ingest_docs_cases model api doc_ids st)
      as [[_ ->]|(chunks & _ & _ & _ & ->)].
  - left. by rewrite chat_query_state.
Qed.

(** X1. Without credentials for the user, the three handlers that need
    Google answer 401, each with its message, and leave the state as it
    is, whatever the services would have answered. *)
Theorem unauthenticated_requests_answer_401 model api doc_id doc_ids st :
  USER_CREDENTIALS st !! "default_user" = None →
  list_docs api st
  = (Ok (JSONResponse
           [("error", JStr "not authenticated. visit /login first")] 401), st)
  ∧ fetch_doc api doc_id st
    = (Ok (JSONResponse [("error", JStr "not authenticated")] 401), st)
  ∧ ingest_docs model api doc_ids st
    = (Ok (JSONResponse
             [("error", JStr "not authenticated. visit /login")] 401), st).
Proof.
  intros Hnone.
  unfold list_docs, fetch_doc, ingest_docs, get_credentials_for_user.
  unfold_handler. by rewrite Hnone.
Qed.

Lemma unauthenticated_requests_answer_401_witness :
  list_docs docs_service initial_state
  = (Ok (JSONResponse
           [("error", JStr "not authenticated. visit /login first")] 401),
     initial_state)
  ∧ fetch_doc docs_service "catdog" initial_state
    = (Ok (JSONResponse [("error", JStr "not authenticated")] 401),
       initial_state)
  ∧ ingest_docs toy_model docs_service ["catdog"] initial_state
    = (Ok (JSONResponse
             [("error", JStr "not authenticated. visit /login")] 401),
       initial_state).
Proof.
  apply (unauthenticated_requests_answer_401
           toy_model docs_service "catdog" ["catdog"] initial_state).
  reflexivity.
Defined.

(** X2. The callback of the token exchange never raises.  When the exchange
    succeeded it answers 200 and stores the credentials under the one
    user key, so that [get_credentials_for_user] returns them from then
    on; the vector stores and every other key are untouched.  When the
    exchange failed it answers 500 and the state is as before, so that
    credentials stored earlier stay in force. *)
Theorem oauth2callback_outcome flow st :
  match flow with
  | Ok creds =>
      (oauth2callback flow st).1
      = Ok (JSONResponse [("status", JStr "connected");
                          ("note", JStr "credentials saved")] 200)
      ∧ (get_credentials_for_user "default_user" (oauth2callback flow st).2).1
        = Ok (Some creds)
      ∧ VECTOR_STORE (oauth2callback flow st).2 = VECTOR_STORE st
      ∧ ∀ key, key ≠ "default_user" →
               USER_CREDENTIALS (oauth2callback flow st).2 !! key
               = USER_CREDENTIALS st !! key
  | Raise e =>
      ∃ r, oauth2callback flow st = (Ok r, st) ∧ status_code r = 500
  end.
Proof.
  destruct flow as [creds|e].
  - unfold oauth2callback, get_credentials_for_user. unfold_handler.
    split_and!; [done|by rewrite lookup_insert_eq|done|].
    intros key Hkey. by rewrite lookup_insert_ne.
  - by eexists.
Qed.

(** X3. Nothing logs the user out: credentials that are there stay there
    (or are replaced by newer ones) whatever requests are served. *)
Theorem credentials_persist model rs st creds :
  USER_CREDENTIALS st !! "default_user" = Some creds →
  is_Some (USER_CREDENTIALS (serve model rs st) !! "default_user").
Proof.
  revert st creds. induction rs as [|r rs IH]; intros st creds Hst; simpl.
  - by rewrite Hst.
  - destruct (handle_credentials model r st) as [Hsame|(creds' & _ & Hnew)].
    + apply (IH _ creds). by rewrite Hsame.
    + apply (IH _ creds'). by rewrite Hnew, lookup_insert_eq.
Qed.

Lemma credentials_persist_witness :
  is_Some (USER_CREDENTIALS
             (serve toy_model
                [Ingest docs_service ["missing"]; OAuthCallback (Raise HttpError);
                 ChatQuery "cat"; ListDocs docs_service]
                logged_in) !! "default_user").
Proof.
  apply (credentials_persist toy_model _ logged_in some_credentials).
  reflexivity.
Defined.

(** X4. Both dictionaries have one slot: from a fresh process, whatever
    requests are served, no key other than ["default_user"] ever holds
    credentials or a vector store. *)
Theorem only_the_default_user_key model rs key :
  key ≠ "default_user" →
  USER_CREDENTIALS (serve model rs initial_state) !! key = None
  ∧ VECTOR_STORE (serve model rs initial_state) !! key = None.
Proof.
  intros Hkey.
  assert (∀ st, USER_CREDENTIALS st !! key = None →
                VECTOR_STORE st !! key = None →
                USER_CREDENTIALS (serve model rs st) !! key = None
                ∧ VECTOR_STORE (serve model rs st) !! key = None) as Hgen.
  { induction rs as [|r rs IH]; intros st Hc Hv; simpl; [done|].
    apply IH.
    - destruct (handle_credentials model r st) as [->|(creds & _ & ->)]; [done|].
      by rewrite lookup_insert_ne.
    - destruct (handle_store model r st) as [->|(_ & _ & chunks & _ & ->)]; [done|].
      by rewrite lookup_insert_ne. }
  by apply Hgen.
Qed.

Lemma only_the_default_user_key_witness :
  USER_CREDENTIALS
    (serve toy_model
       [OAuthCallback (Ok some_credentials); Ingest docs_service ["fox"]]
       initial_state) !! "alice" = None
  ∧ VECTOR_STORE
      (serve toy_model
         [OAuthCallback (Ok some_credentials); Ingest docs_service ["fox"]]
         initial_state) !! "alice" = None.
Proof.
  apply (only_the_default_user_key toy_model). discriminate.
Defined.

(** ** Listing and fetching documents *)

(** X5. [list_docs] has everything that talks to Google inside its [try]:
    it never raises and never touches the state; its answer is 200, 401
    or 500. *)
Theorem list_docs_never_raises api st :
  ∃ r, list_docs api st = (Ok r, st)
       ∧ (status_code r = 200 ∨ status_code r = 401 ∨ status_code r = 500).
Proof.
  unfold list_docs, get_credentials_for_user. unfold_handler.
  destruct (USER_CREDENTIALS st !! "default_user"); [|eexists; eauto].
  destruct (match build api with Ok _ => _ | Raise e => Raise e end);
    eexists; eauto.
Qed.

Lemma omapM_map {A B} (f : A → outcome B) (g : A → B) l :
  Forall (λ a, f a = Ok (g a)) l → omapM f l = Ok (map g l).
Proof. apply omapM_total. Qed.

(** X6. With credentials, a client and a result object from Drive, the
    answer lists the files in the order Drive gave them, each cut down
    to its [id] and [name]; a result without [files] lists nothing. *)
Theorem list_docs_lists_files api st creds results :
  USER_CREDENTIALS st !! "default_user" = Some creds →
  build api = Ok () →
  files_list api = Ok results →
  is_dict results = true →
  (field "files" results = None
   ∨ ∃ l, field "files" results = Some (JList l)) →
  Forall (λ f, is_dict f = true ∧ is_Some (field "id" f)
               ∧ is_Some (field "name" f))
    (list_field "files" results) →
  list_docs api st
  = (Ok (JSONResponse
           [("documents",
             JList (map (λ f, JDict [("id", from_option id JNull (field "id" f));
                                     ("name", from_option id JNull (field "name" f))])
                      (list_field "files" results)))] 200),
     st).
Proof.
  intros Hcreds Hbuild Hlist Hdict Hfiles Hall.
  unfold list_docs, get_credentials_for_user. unfold_handler.
  rewrite Hcreds, Hbuild, Hlist.
  destruct results as [| | | | |d]; try discriminate. simpl.
  assert (from_option id (JList []) (dict_lookup "files" d)
          = JList (list_field "files" (JDict d))) as ->.
  { unfold list_field. simpl in *.
    destruct Hfiles as [->|[l ->]]; done. }
  simpl.
  rewrite (omapM_map _ (λ f, JDict [("id", from_option id JNull (field "id" f));
                                    ("name", from_option id JNull (field "name" f))]));
    [done|].
  eapply Forall_impl; [exact Hall|].
  intros f (Hf & [i Hi] & [n Hn]).
  destruct f as [| | | | |fd]; try discriminate. simpl in *.
  by rewrite Hi, Hn.
Qed.

Lemma list_docs_lists_files_witness :
  list_docs docs_service logged_in
  = (Ok (JSONResponse
           [("documents",
             JList (map (λ f, JDict [("id", from_option id JNull (field "id" f));
                                     ("name", from_option id JNull (field "name" f))])
                      (list_field "files"
                         (JDict [("files",
                                  JList [JDict [("id", JStr "catdog");
                                                ("name", JStr "Cat and dog")];
                                         JDict [("id", JStr "fox");
                                                ("name", JStr "Fox")]])]))))] 200),
     logged_in).
Proof.
  apply (list_docs_lists_files docs_service logged_in some_credentials).
  - reflexivity.
  - reflexivity.
  - reflexivity.
  - reflexivity.
  - right. by eexists.
  - repeat constructor; by eexists.
Defined.

(** Text extraction on the documents of the schema, for use below. *)
Lemma extract_text_schema gdoc :
  wf_document gdoc = true → extract_text gdoc = Ok (document_text gdoc).
Proof.
  unfold wf_document, document_text, extract_text.
  destruct gdoc as [| | | | |d]; try discriminate. simpl.
  destruct (dict_lookup "body" d) as [body|]; simpl; [|done].
  unfold wf_body, body_text, list_field.
  destruct body as [| | | | |b]; try discriminate. simpl.
  destruct (dict_lookup "content" b) as [[| | | |l|]|]; try discriminate; simpl;
    [|done].
  intros Hl.
  destruct (chunks_of_list element_chunks structural_element_text l)
    as (strs & Happ & Htext).
  { apply Forall_forall. intros v Hv. apply element_chunks_wf.
    rewrite forallb_forall in Hl. by apply Hl, list_elem_of_In. }
  unfold mbind, outcome_bind in *.
  destruct (omapM element_chunks l) as [appended|]; [|discriminate].
  injection Happ as ->. by rewrite py_join_strings, Htext.
Qed.

(** X7. With credentials and a client, fetching a document of the schema
    answers 200 with the document's text, and with its [documentId] and
    [title], or [null] where the payload has none; the state is as
    before. *)
Theorem fetch_doc_returns_text api doc_id st creds doc :
  USER_CREDENTIALS st !! "default_user" = Some creds →
  build api = Ok () →
  documents_get api doc_id = Ok doc →
  wf_document doc = true →
  fetch_doc api doc_id st
  = (Ok (JSONResponse
           [("id", from_option id JNull (field "documentId" doc));
            ("title", from_option id JNull (field "title" doc));
            ("text", JStr (document_text doc))] 200),
     st).
Proof.
  intros Hcreds Hbuild Hget Hwf.
  unfold fetch_doc, get_credentials_for_user. unfold_handler.
  rewrite Hcreds, Hbuild, Hget, (extract_text_schema doc Hwf).
  by destruct doc.
Qed.

Lemma fetch_doc_returns_text_witness :
  fetch_doc docs_service "fox" logged_in
  = (Ok (JSONResponse
           [("id", from_option id JNull
                     (field "documentId" (gdoc [["The quick brown fox."]])));
            ("title", from_option id JNull
                        (field "title" (gdoc [["The quick brown fox."]])));
            ("text", JStr (document_text (gdoc [["The quick brown fox."]])))] 200),
     logged_in).
Proof.
  apply (fetch_doc_returns_text docs_service "fox" logged_in some_credentials);
    reflexivity.
Defined.

(** ** Ingestion *)

Lemma omapM_Forall2 {A B} (f : A → outcome B) l bs :
  Forall2 (λ a b, f a = Ok b) l bs → omapM f l = Ok bs.
Proof.
  induction 1 as [|a b l bs Hab _ IH]; [done|].
  cbn [omapM]. unfold mbind, outcome_bind. by rewrite Hab, IH.
Qed.

Lemma omapM_first_failure {A B} (f : A → outcome B) before a after e :
  Forall (λ x, ∃ b, f x = Ok b) before → f a = Raise e →
  omapM f (before ++ a :: after) = Raise e.
Proof.
  intros Hbefore Ha. induction Hbefore as [|x before [b Hb] _ IH].
  - cbn [app omapM]. unfold mbind, outcome_bind. by rewrite Ha.
  - rewrite <- app_comm_cons. cbn [omapM]. unfold mbind, outcome_bind in *.
    by rewrite Hb, IH.
Qed.

(** What has to have gone well for an ingestion to answer 200. *)
Lemma ingest_docs_succeeded model api doc_ids st :
  succeeded (ingest_docs model api doc_ids st).1 = true →
  ∃ creds all_chunks pieces,
    USER_CREDENTIALS st !! "default_user" = Some creds
    ∧ build api = Ok ()
    ∧ omapM (λ doc_id, doc ← documents_get api doc_id; extract_text doc) doc_ids
      = Ok all_chunks
    ∧ omapM (LangChain.split_text splitter) all_chunks = Ok pieces
    ∧ concat pieces ≠ [].
Proof.
  unfold ingest_docs, get_credentials_for_user. unfold_handler.
  destruct (USER_CREDENTIALS st !! "default_user") as [creds|]; [|done].
  destruct (build api) as [[]|e]; [|done].
  destruct (omapM _ doc_ids) as [all_chunks|e] eqn:Hfetch; [|done].
  destruct (omapM _ all_chunks) as [pieces|e] eqn:Hsplit; [|done].
  simpl. destruct (concat pieces) as [|c chunks] eqn:Hchunks; [done|].
  intros _. exists creds, all_chunks, pieces. by rewrite Hchunks.
Qed.

(** X8. A successful ingestion replaces the session's store as a whole.  The
    new store holds the chunks of the requested documents and nothing
    else: document after document in the order of the request, each
    document's chunks in the order the splitter gave them; the index
    holds their embeddings in the same order; and the number in the
    answer is the number of chunks stored.  What the store held before
    plays no part. *)
Theorem ingestion_replaces_store model api doc_ids st :
  succeeded (ingest_docs model api doc_ids st).1 = true →
  ∃ all_text pieces,
    Forall2 (λ doc_id text, ∃ doc, documents_get api doc_id = Ok doc
                                   ∧ extract_text doc = Ok text)
      doc_ids all_text
    ∧ Forall2 (λ text chunks, LangChain.split_text splitter text = Ok chunks)
        all_text pieces
    ∧ VECTOR_STORE (ingest_docs model api doc_ids st).2 !! "default_user"
      = Some {| index := {| Faiss.d := dimension model;
                            Faiss.xb := map (embed model) (concat pieces) |};
                texts := concat pieces |}
    ∧ (ingest_docs model api doc_ids st).1
      = Ok (JSONResponse
              [("message",
                JStr (pretty (length (concat pieces))
                      +:+ " chunks ingested and indexed for RAG."))] 200).
Proof.
  intros Hok.
  destruct (ingest_docs_succeeded model api doc_ids st Hok)
    as (creds & all_text & pieces & Hcreds & Hbuild & Hfetch & Hsplit & Hne).
  rewrite (ingest_docs_success model api doc_ids st creds all_text pieces)
    by done.
  exists all_text, pieces. simpl. split_and!; [| |by rewrite lookup_insert_eq|done].
  - apply omapM_Ok in Hfetch.
    eapply Forall2_impl; [exact Hfetch|]. intros doc_id text H. simpl in H.
    unfold mbind, outcome_bind in H.
    destruct (documents_get api doc_id) as [doc|]; [eauto|discriminate].
  - by apply omapM_Ok in Hsplit.
Qed.

Lemma ingestion_replaces_store_witness :
  ∃ all_text pieces,
    Forall2 (λ doc_id text, ∃ doc, documents_get docs_service doc_id = Ok doc
                                   ∧ extract_text doc = Ok text)
      ["fox"] all_text
    ∧ Forall2 (λ text chunks, LangChain.split_text splitter text = Ok chunks)
        all_text pieces
    ∧ VECTOR_STORE
        (ingest_docs toy_model docs_service ["fox"]
           (ingest_docs toy_model docs_service ["catdog"] logged_in).2).2
        !! "default_user"
      = Some {| index := {| Faiss.d := dimension toy_model;
                            Faiss.xb := map (embed toy_model) (concat pieces) |};
                texts := concat pieces |}
    ∧ (ingest_docs toy_model docs_service ["fox"]
         (ingest_docs toy_model docs_service ["catdog"] logged_in).2).1
      = Ok (JSONResponse
              [("message",
                JStr (pretty (length (concat pieces))
                      +:+ " chunks ingested and indexed for RAG."))] 200).
Proof.
  apply (ingestion_replaces_store toy_model docs_service ["fox"]).
  vm_compute. reflexivity.
Defined.

(** X9. Ingesting the same documents a second time, with the services
    answering as before, gives the same answer and leaves the state the
    first ingestion produced. *)
Theorem ingestion_is_idempotent model api doc_ids st :
  ingest_docs model api doc_ids (ingest_docs model api doc_ids st).2
  = ingest_docs model api doc_ids st.
Proof.
  destruct (succeeded (ingest_docs model api doc_ids st).1) eqn:Hok.
  - destruct (ingest_docs_succeeded model api doc_ids st Hok)
      as (creds & all_text & pieces & Hcreds & Hbuild & Hfetch & Hsplit & Hne).
    rewrite (ingest_docs_success model api doc_ids st creds all_text pieces)
      by done.
    simpl.
    rewrite (ingest_docs_success model api doc_ids _ creds all_text pieces)
      by done.
    simpl. by rewrite insert_insert_eq.
  - destruct (ingest_docs_cases model api doc_ids st)
      as [[_ Hst]|(chunks & _ & _ & Hr & _)].
    + by rewrite Hst.
    + rewrite Hr in Hok. discriminate.
Qed.

(** X10. [ingest_docs] catches nothing: when the documents before some
    document of the request are fetched and read without error and the
    fetch of that document raises, the handler raises that very
    exception, whatever comes after in the request, and the state is as
    before. *)
Theorem ingestion_raises_first_failure
    model api before doc_id after e st creds :
  USER_CREDENTIALS st !! "default_user" = Some creds →
  build api = Ok () →
  Forall (λ x, ∃ doc text, documents_get api x = Ok doc
                           ∧ extract_text doc = Ok text) before →
  documents_get api doc_id = Raise e →
  ingest_docs model api (before ++ doc_id :: after) st = (Raise e, st).
Proof.
  intros Hcreds Hbuild Hbefore Hfail.
  unfold ingest_docs, get_credentials_for_user. unfold_handler.
  rewrite Hcreds, Hbuild.
  rewrite (omapM_first_failure _ before doc_id after e); [done| |].
  - eapply Forall_impl; [exact Hbefore|].
    intros x (doc & text & -> & ->). eauto.
  - by rewrite Hfail.
Qed.

Lemma ingestion_raises_first_failure_witness :
  ingest_docs toy_model docs_service (["catdog"] ++ "missing" :: ["fox"]) logged_in
  = (Raise HttpError, logged_in).
Proof.
  apply (ingestion_raises_first_failure
           toy_model docs_service ["catdog"] "missing" ["fox"] HttpError
           logged_in some_credentials).
  - reflexivity.
  - reflexivity.
  - repeat constructor. eexists _, _. split; reflexivity.
  - reflexivity.
Defined.

(** X11. What [fetch_doc] shows is what [ingest_docs] indexes: when fetching
    a document answers 200 with some text, ingesting that one document
    with the same services stores the chunks of that text. *)
Theorem ingestion_indexes_fetched_text model api doc_id st r text chunks :
  (fetch_doc api doc_id st).1 = Ok r →
  status_code r = 200 →
  dict_lookup "text" (content r) = Some (JStr text) →
  LangChain.split_text splitter text = Ok chunks →
  chunks ≠ [] →
  texts <$> VECTOR_STORE (ingest_docs model api [doc_id] st).2 !! "default_user"
  = Some chunks.
Proof.
  unfold fetch_doc, get_credentials_for_user. unfold_handler.
  destruct (USER_CREDENTIALS st !! "default_user") as [creds|] eqn:Hcreds;
    [|by intros [= <-]].
  destruct (build api) as [[]|] eqn:Hbuild; [|done].
  destruct (documents_get api doc_id) as [doc|] eqn:Hget; [|done].
  destruct (extract_text doc) as [plain_text|] eqn:Hextract; [|done].
  destruct (py_get doc "documentId" JNull); [|done].
  destruct (py_get doc "title" JNull); [|done].
  simpl. intros [= <-] _ [= <-] Hsplit Hne.
  rewrite (ingest_docs_success model api [doc_id] st creds [plain_text] [chunks]).
  - simpl. by rewrite lookup_insert_eq, app_nil_r.
  - done.
  - done.
  - cbn [omapM]. unfold mbind, outcome_bind. by rewrite Hget, Hextract.
  - cbn [omapM]. unfold mbind, outcome_bind. by rewrite Hsplit.
  - simpl. by rewrite app_nil_r.
Qed.

Lemma ingestion_indexes_fetched_text_witness :
  texts <$> VECTOR_STORE (ingest_docs toy_model docs_service ["fox"] logged_in).2
              !! "default_user"
  = Some ["The quick brown fox."].
Proof.
  apply (ingestion_indexes_fetched_text toy_model docs_service "fox" logged_in
           (JSONResponse [("id", JStr "doc"); ("title", JStr "a document");
                          ("text", JStr "The quick brown fox.")] 200)
           "The quick brown fox.").
  - reflexivity.
  - reflexivity.
  - reflexivity.
  - reflexivity.
  - discriminate.
Defined.

(** ** Queries on the store that an ingestion built *)

Lemma py_index_lookup {A} (l : list A) i a :
  l !! i = Some a → py_index l (Z.of_nat i) = Ok a.
Proof.
  intros Hi. pose proof (lookup_lt_Some _ _ _ Hi) as Hlt.
  unfold py_index.
  destruct (Z.ltb_spec (Z.of_nat i) 0); [lia|].
  destruct (Z.leb_spec 0 (Z.of_nat i)); [|lia].
  destruct (Z.ltb_spec (Z.of_nat i) (Z.of_nat (length l))); [|lia].
  simpl. by rewrite Nat2Z.id, Hi.
Qed.

Lemma py_index_minus_one {A} (l : list A) :
  l ≠ [] → ∃ a, py_index l (-1) = Ok a ∧ a ∈ l.
Proof.
  intros Hne.
  assert (0 < length l)%nat as Hlen by (destruct l; [done|simpl; lia]).
  destruct (lookup_lt_is_Some_2 l (pred (length l))) as [a Ha]; [lia|].
  exists a. split; [|by eapply list_elem_of_lookup_2].
  unfold py_index. simpl.
  destruct (Z.leb_spec 0 (-1 + Z.of_nat (length l))); [|lia].
  destruct (Z.ltb_spec (-1 + Z.of_nat (length l)) (Z.of_nat (length l))); [|lia].
  simpl. replace (Z.to_nat (-1 + Z.of_nat (length l))) with (pred (length l)) by lia.
  by rewrite Ha.
Qed.

Lemma omapM_results {A B} (f : A → outcome B) (P : B → Prop) l :
  Forall (λ a, ∃ b, f a = Ok b ∧ P b) l →
  ∃ bs, omapM f l = Ok bs ∧ length bs = length l ∧ Forall P bs.
Proof.
  induction 1 as [|a l (b & Hb & HP) _ (bs & Hbs & Hlen & HPs)].
  - by exists [].
  - exists (b :: bs). cbn [omapM]. unfold mbind, outcome_bind.
    rewrite Hb, Hbs. simpl. split_and!; [done|by rewrite Hlen|by constructor].
Qed.

Section built_store.
Context (model : SentenceTransformer).

(** The positions of the vectors and their distances to the query, for an
    index that holds the embeddings of [chunks]. *)
Lemma nearest_of_chunks chunks q k p :
  p ∈ take k (Faiss.sort_nearest
                (Faiss.distances
                   {| Faiss.d := dimension model;
                      Faiss.xb := map (embed model) chunks |} q)) →
  ∃ i t, chunks !! i = Some t
         ∧ p = (Z.of_nat i, Faiss.fvec_L2sqr q (embed model t)).
Proof.
  intros Hp.
  destruct (nearest_spec
              {| Faiss.d := dimension model;
                 Faiss.xb := map (embed model) chunks |} q k) as (_ & _ & Hbest).
  rewrite Forall_forall in Hbest.
  destruct (Hbest p Hp) as (i & v & Hv & ->). simpl in Hv.
  change (map (embed model) chunks) with (embed model <$> chunks) in Hv.
  rewrite list_lookup_fmap in Hv.
  destruct (chunks !! i) as [t|] eqn:Ht; [|done].
  injection Hv as <-. eauto.
Qed.

(** A query on a built store is answered with three texts of the store. *)
Lemma chat_query_built query chunks st :
  chunks ≠ [] →
  VECTOR_STORE st !! "default_user"
  = Some {| index := {| Faiss.d := dimension model;
                        Faiss.xb := map (embed model) chunks |};
            texts := chunks |} →
  ∃ results,
    chat_query model query st
    = (Ok (JSONResponse
             [("query", JStr query);
              ("response", JStr (join (NL +:+ "---" +:+ NL) results))] 200), st)
    ∧ omapM (py_index chunks)
        (map fst (Faiss.search_row
                    {| Faiss.d := dimension model;
                       Faiss.xb := map (embed model) chunks |} 3
                    (embed model query)))
      = Ok results
    ∧ length results = 3%nat
    ∧ Forall (λ t, t ∈ chunks) results.
Proof.
  intros Hne Hstore.
  destruct (omapM_results (py_index chunks) (λ t, t ∈ chunks)
              (map fst (Faiss.search_row
                          {| Faiss.d := dimension model;
                             Faiss.xb := map (embed model) chunks |} 3
                          (embed model query))))
    as (results & Hresults & Hlen & Hin).
  { apply Forall_forall. intros i Hi.
    apply list_elem_of_In, in_map_iff in Hi as (p & <- & Hp).
    apply list_elem_of_In in Hp. unfold Faiss.search_row in Hp.
    apply elem_of_app in Hp as [Hp|Hp].
    - apply nearest_of_chunks in Hp as (j & t & Ht & ->).
      exists t. split; [by apply py_index_lookup|by eapply list_elem_of_lookup_2].
    - apply elem_of_replicate in Hp as [-> _]. by apply py_index_minus_one. }
  exists results. split_and!; [|done| |done].
  - unfold chat_query. unfold_handler. rewrite Hstore.
    unfold encode. cbn [map index texts].
    rewrite search_one_query; [|lia|apply embed_dimension].
    change (Z.to_nat 3) with 3%nat.
    change (py_index [?row] 0) with (Ok row).
    cbv beta iota. by rewrite Hresults.
  - rewrite Hlen, length_map. unfold Faiss.search_row.
    rewrite length_app, length_replicate.
    pose proof (length_take_le
                  (Faiss.sort_nearest
                     (Faiss.distances
                        {| Faiss.d := dimension model;
                           Faiss.xb := map (embed model) chunks |}
                        (embed model query))) 3).
    destruct (decide (3 ≤ length (Faiss.sort_nearest
                     (Faiss.distances
                        {| Faiss.d := dimension model;
                           Faiss.xb := map (embed model) chunks |}
                        (embed model query))))%nat).
    + rewrite length_take_le by done. lia.
    + rewrite length_take_ge by lia. lia.
Qed.

End built_store.

Section nearest_chunks.
Context (model : SentenceTransformer).

Lemma ingested_store_built api doc_ids st :
  succeeded (ingest_docs model api doc_ids st).1 = true →
  ∃ chunks,
    chunks ≠ []
    ∧ VECTOR_STORE (ingest_docs model api doc_ids st).2 !! "default_user"
      = Some {| index := {| Faiss.d := dimension model;
                            Faiss.xb := map (embed model) chunks |};
                texts := chunks |}.
Proof.
  intros Hok.
  destruct (ingest_docs_cases model api doc_ids st)
    as [[Hfail _]|(chunks & Hne & _ & _ & ->)]; [congruence|].
  exists chunks. split; [done|]. apply lookup_insert_eq.
Qed.

Lemma serve_store_built rs st :
  (∀ s, VECTOR_STORE st !! "default_user" = Some s →
        ∃ chunks, chunks ≠ []
                  ∧ s = {| index := {| Faiss.d := dimension model;
                                       Faiss.xb := map (embed model) chunks |};
                           texts := chunks |}) →
  ∀ s, VECTOR_STORE (serve model rs st) !! "default_user" = Some s →
       ∃ chunks, chunks ≠ []
                 ∧ s = {| index := {| Faiss.d := dimension model;
                                      Faiss.xb := map (embed model) chunks |};
                          texts := chunks |}.
Proof.
  revert st. induction rs as [|r rs IH]; intros st Hst; simpl; [done|].
  apply IH.
  destruct (handle_store model r st) as [->|(_ & _ & chunks & Hne & ->)]; [done|].
  intros s. rewrite lookup_insert_eq. intros [= <-]. by exists chunks.
Qed.

End nearest_chunks.

(** ** Queries with the libraries as they are *)

Section live_facts.
Context (model : SentenceTransformer) (dis : FaissFloat.kernel).

Lemma live_chat_query_no_store embedder query st :
  VECTOR_STORE st !! "default_user" = None →
  Live.chat_query model dis embedder query st
  = (Ok (JSONResponse
           [("error", JStr "No documents ingested yet. Use /ingest first.")]
           400), st).
Proof. intros Hs. unfold Live.chat_query. unfold_handler. by rewrite Hs. Qed.

(** What loading the model or encoding the query raises, the handler
    raises: nothing catches it. *)
Lemma live_chat_query_raise e query st s :
  VECTOR_STORE st !! "default_user" = Some s →
  Live.chat_query model dis (Raise e) query st = (Raise e, st).
Proof. intros Hs. unfold Live.chat_query. unfold_handler. by rewrite Hs. Qed.

Lemma float_nearest_of_chunks chunks q k p :
  p ∈ take k (Faiss.sort_nearest
                (FaissFloat.candidates dis
                   {| Faiss.d := dimension model;
                      Faiss.xb := map (embed model) chunks |} q)) →
  ∃ i t, chunks !! i = Some t ∧ p.1 = Z.of_nat i
         ∧ dis q (embed model t) = Some p.2 ∧ (p.2 < Faiss.FLT_MAX)%Q.
Proof.
  intros Hp.
  destruct (float_nearest_spec dis
              {| Faiss.d := dimension model;
                 Faiss.xb := map (embed model) chunks |} q k)
    as (_ & _ & _ & _ & Hbest & _).
  destruct (Hbest p Hp) as (i & v & Hv & Hi & Hdis & Hlt). simpl in Hv.
  change (map (embed model) chunks) with (embed model <$> chunks) in Hv.
  rewrite list_lookup_fmap in Hv.
  destruct (chunks !! i) as [t|] eqn:Ht; [|done].
  injection Hv as <-. by exists i, t.
Qed.

(** A query on a built store, when the model loads, is answered with
    three texts of the store. *)
Lemma live_chat_query_built u query chunks st :
  chunks ≠ [] →
  VECTOR_STORE st !! "default_user"
  = Some {| index := {| Faiss.d := dimension model;
                        Faiss.xb := map (embed model) chunks |};
            texts := chunks |} →
  ∃ results,
    Live.chat_query model dis (Ok u) query st
    = (Ok (JSONResponse
             [("query", JStr query);
              ("response", JStr (join (NL +:+ "---" +:+ NL) results))] 200), st)
    ∧ omapM (py_index chunks)
        (map fst (FaissFloat.search_row dis
                    {| Faiss.d := dimension model;
                       Faiss.xb := map (embed model) chunks |} 3
                    (embed model query)))
      = Ok results
    ∧ length results = 3%nat
    ∧ Forall (λ t, t ∈ chunks) results.
Proof.
  intros Hne Hstore.
  destruct (omapM_results (py_index chunks) (λ t, t ∈ chunks)
              (map fst (FaissFloat.search_row dis
                          {| Faiss.d := dimension model;
                             Faiss.xb := map (embed model) chunks |} 3
                          (embed model query))))
    as (results & Hresults & Hlen & Hin).
  { apply Forall_forall. intros i Hi.
    apply list_elem_of_In, in_map_iff in Hi as (p & <- & Hp).
    apply list_elem_of_In in Hp. unfold FaissFloat.search_row in Hp.
    apply elem_of_app in Hp as [Hp|Hp].
    - apply float_nearest_of_chunks in Hp as (j & t & Ht & -> & _).
      exists t. split; [by apply py_index_lookup|by eapply list_elem_of_lookup_2].
    - apply elem_of_replicate in Hp as [-> _]. by apply py_index_minus_one. }
  exists results. split_and!; [|done| |done].
  - unfold Live.chat_query. unfold_handler. rewrite Hstore.
    unfold encode. cbn [map index texts].
    rewrite float_search_one_query; [|lia|apply embed_dimension].
    change (Z.to_nat 3) with 3%nat.
    change (py_index [?row] 0) with (Ok row).
    cbv beta iota. by rewrite Hresults.
  - rewrite Hlen, length_map. unfold FaissFloat.search_row.
    rewrite length_app, length_replicate, length_take. lia.
Qed.

(** The first slot of a row holds a chunk that no chunk beats in
    computed distance, as soon as one chunk has a distance that can
    enter the row. *)
Lemma float_nearest_first chunks q t0 d0 :
  t0 ∈ chunks → dis q (embed model t0) = Some d0 → (d0 < Faiss.FLT_MAX)%Q →
  ∃ i t d rest,
    FaissFloat.search_row dis {| Faiss.d := dimension model;
                                 Faiss.xb := map (embed model) chunks |} 3 q
    = (Z.of_nat i, d) :: rest
    ∧ chunks !! i = Some t
    ∧ dis q (embed model t) = Some d
    ∧ (d < Faiss.FLT_MAX)%Q
    ∧ ∀ t' d', t' ∈ chunks → dis q (embed model t') = Some d' → (d <= d')%Q.
Proof.
  intros Ht0 Hd0 Hlt0.
  destruct (float_nearest_spec dis
              {| Faiss.d := dimension model;
                 Faiss.xb := map (embed model) chunks |} q 3)
    as (_ & _ & Hsorted & _ & _ & Hnearest).
  pose proof (float_nearest_of_chunks chunks q 3) as Hbest.
  assert (∀ j t, chunks !! j = Some t →
                 Faiss.xb {| Faiss.d := dimension model;
                             Faiss.xb := map (embed model) chunks |} !! j
                 = Some (embed model t)) as Hxb.
  { intros j t Hj. simpl.
    change (map (embed model) chunks) with (embed model <$> chunks).
    by rewrite list_lookup_fmap, Hj. }
  unfold FaissFloat.search_row.
  destruct (take 3 _) as [|[l1 d1] rest] eqn:Htake.
  { apply list_elem_of_lookup in Ht0 as [j Hj].
    destruct (Hnearest j _ d0 (Hxb j t0 Hj) Hd0 Hlt0) as [Hin|[Hlen _]];
      [by apply elem_of_nil in Hin|done]. }
  destruct (Hbest (l1, d1)) as (i & t & Ht & Hi & Hd & Hlt); [by left|].
  simpl in Hi, Hd, Hlt. subst l1.
  exists i, t, d1. eexists. split_and!; [done..|].
  intros t' d' Ht' Hd'.
  destruct (Qlt_le_dec d' Faiss.FLT_MAX) as [Hlt'|Hge'].
  - apply list_elem_of_lookup in Ht' as [j Hj].
    destruct (Hnearest j _ d' (Hxb j t' Hj) Hd' Hlt') as [Hin|[_ Hall]].
    + apply elem_of_cons in Hin as [Heq|Hin].
      * injection Heq as _ ->. apply Qle_refl.
      * apply StronglySorted_inv in Hsorted as [_ Hfirst].
        rewrite Forall_forall in Hfirst. apply (Hfirst _ Hin).
    + apply (Hall (Z.of_nat i, d1)). by left.
  - apply Qle_trans with Faiss.FLT_MAX; [by apply Qlt_le_weak|done].
Qed.

(** With three chunks or more, all of computed distance finite and
    below [FLT_MAX], the row has three different positions, nearest
    first, no slot is left over, and what is left out is no nearer. *)
Lemma float_nearest_three chunks q :
  (3 ≤ length chunks)%nat →
  (∀ t, t ∈ chunks →
        ∃ dt, dis q (embed model t) = Some dt ∧ (dt < Faiss.FLT_MAX)%Q) →
  ∃ i1 i2 i3 t1 t2 t3 d1 d2 d3,
    FaissFloat.search_row dis {| Faiss.d := dimension model;
                                 Faiss.xb := map (embed model) chunks |} 3 q
    = [(Z.of_nat i1, d1); (Z.of_nat i2, d2); (Z.of_nat i3, d3)]
    ∧ chunks !! i1 = Some t1 ∧ chunks !! i2 = Some t2 ∧ chunks !! i3 = Some t3
    ∧ NoDup [i1; i2; i3]
    ∧ dis q (embed model t1) = Some d1
    ∧ dis q (embed model t2) = Some d2
    ∧ dis q (embed model t3) = Some d3
    ∧ (d1 <= d2)%Q ∧ (d2 <= d3)%Q
    ∧ ∀ j t dt, chunks !! j = Some t → dis q (embed model t) = Some dt →
                j ∈ [i1; i2; i3] ∨ (d3 <= dt)%Q.
Proof.
  intros Hlen Hall.
  destruct (float_nearest_spec dis
              {| Faiss.d := dimension model;
                 Faiss.xb := map (embed model) chunks |} q 3)
    as (_ & Hfull & Hsorted & Hnodup & _ & Hnearest).
  pose proof (float_nearest_of_chunks chunks q 3) as Hbest.
  assert (∀ j t, chunks !! j = Some t →
                 Faiss.xb {| Faiss.d := dimension model;
                             Faiss.xb := map (embed model) chunks |} !! j
                 = Some (embed model t)) as Hxb.
  { intros j t Hj. simpl.
    change (map (embed model) chunks) with (embed model <$> chunks).
    by rewrite list_lookup_fmap, Hj. }
  assert (length (take 3 (Faiss.sort_nearest
                            (FaissFloat.candidates dis
                               {| Faiss.d := dimension model;
                                  Faiss.xb := map (embed model) chunks |} q)))
          = 3%nat) as Hthree.
  { rewrite Hfull.
    - unfold Faiss.ntotal. cbn [Faiss.xb]. rewrite length_map. lia.
    - intros v Hv. cbn [Faiss.xb] in Hv.
      apply list_elem_of_In, in_map_iff in Hv as (t & <- & Ht).
      apply Hall. by apply list_elem_of_In. }
  clear Hfull. unfold FaissFloat.search_row.
  destruct (take 3 _) as [|[l1 d1] [|[l2 d2] [|[l3 d3] [|??]]]] eqn:Htake;
    cbn [length] in Hthree; try lia.
  destruct (Hbest (l1, d1)) as (i1 & t1 & Ht1 & Hi1 & Hd1 & _);
    [by left|].
  destruct (Hbest (l2, d2)) as (i2 & t2 & Ht2 & Hi2 & Hd2 & _);
    [by right; left|].
  destruct (Hbest (l3, d3)) as (i3 & t3 & Ht3 & Hi3 & Hd3 & _);
    [by right; right; left|].
  simpl in Hi1, Hi2, Hi3, Hd1, Hd2, Hd3. subst l1 l2 l3.
  exists i1, i2, i3, t1, t2, t3, d1, d2, d3.
  split_and!; try done.
  - cbn [fmap list_fmap fst] in Hnodup.
    apply NoDup_cons in Hnodup as [H1 Hnodup].
    apply NoDup_cons in Hnodup as [H2 Hnodup].
    apply NoDup_cons in Hnodup as [H3 _].
    apply not_elem_of_cons in H1 as (N12 & H1).
    apply not_elem_of_cons in H1 as (N13 & _).
    apply not_elem_of_cons in H2 as (N23 & _).
    apply NoDup_cons. split.
    { rewrite !not_elem_of_cons. split_and!; [congruence..|apply not_elem_of_nil]. }
    apply NoDup_cons. split; [|apply NoDup_singleton].
    rewrite not_elem_of_cons. split; [congruence|apply not_elem_of_nil].
  - apply StronglySorted_inv in Hsorted as [_ Hfirst].
    apply Forall_inv in Hfirst. exact Hfirst.
  - apply StronglySorted_inv in Hsorted as [Hsorted _].
    apply StronglySorted_inv in Hsorted as [_ Hfirst].
    apply Forall_inv in Hfirst. exact Hfirst.
  - intros j t dt Hj Hdt.
    destruct (Hall t) as (dt' & Hdt' & Hlt); [by eapply list_elem_of_lookup_2|].
    rewrite Hdt in Hdt'. injection Hdt' as <-.
    destruct (Hnearest j _ dt (Hxb j t Hj) Hdt Hlt) as [Hin|[_ Hfar]].
    + left.
      repeat (apply elem_of_cons in Hin as [Heq|Hin];
              [injection Heq as ->%Nat2Z.inj _;
               rewrite !elem_of_cons; tauto|]).
      by apply elem_of_nil in Hin.
    + right. apply (Hfar (Z.of_nat i3, d3)). by right; right; left.
Qed.

(** With exact arithmetic, a model that loads and distances below
    [FLT_MAX], the handler is [chat_query]. *)
Lemma live_chat_query_exact u query st :
  (∀ s v, VECTOR_STORE st !! "default_user" = Some s →
          v ∈ Faiss.xb (index s) →
          (Faiss.fvec_L2sqr (embed model query) v < Faiss.FLT_MAX)%Q) →
  Live.chat_query model FaissFloat.exact (Ok u) query st
  = chat_query model query st.
Proof.
  intros Hlt. unfold Live.chat_query, chat_query. unfold_handler.
  destruct (VECTOR_STORE st !! "default_user") as [s|]; [|done].
  rewrite float_search_exact; [done|].
  intros q v Hq Hv. unfold encode in Hq. simpl in Hq.
  apply list_elem_of_singleton in Hq as ->. by eapply Hlt.
Qed.

End live_facts.

(** X14. In a process that started fresh, whatever requests were served, a
    chat query raises only what loading the model or encoding the query
    raises, and that it does raise, for nothing catches it.  It answers
    400 while the session has no store, before the model is touched.
    Once the session has a store: if the model fails with an exception,
    the handler raises that exception; if the model loads, then whatever
    the index computes as distances, the store is not empty and the
    answer is 200 with exactly three results, each of them a chunk text
    of the store, joined by the display separator.  The state is the
    same after the query in every case. *)
Theorem chat_query_raises_only_from_the_model model dis embedder rs query :
  match VECTOR_STORE (serve model rs initial_state) !! "default_user" with
  | None =>
      Live.chat_query model dis embedder query (serve model rs initial_state)
      = (Ok (JSONResponse
               [("error", JStr "No documents ingested yet. Use /ingest first.")]
               400), serve model rs initial_state)
  | Some s =>
      match embedder with
      | Raise e =>
          Live.chat_query model dis embedder query
            (serve model rs initial_state)
          = (Raise e, serve model rs initial_state)
      | Ok _ =>
          ∃ results,
            Live.chat_query model dis embedder query
              (serve model rs initial_state)
            = (Ok (JSONResponse
                     [("query", JStr query);
                      ("response",
                       JStr (join (NL +:+ "---" +:+ NL) results))] 200),
               serve model rs initial_state)
            ∧ length results = 3%nat
            ∧ texts s ≠ []
            ∧ Forall (λ t, t ∈ texts s) results
      end
  end.
Proof.
  destruct (VECTOR_STORE (serve model rs initial_state) !! "default_user")
    as [s|] eqn:Hs; [|by apply live_chat_query_no_store].
  destruct embedder as [u|e]; [|by eapply live_chat_query_raise].
  destruct (serve_store_built model rs initial_state) with (s := s)
    as (chunks & Hne & ->); [by intros s' Hs'|done|].
  destruct (live_chat_query_built model dis u query chunks _ Hne Hs)
    as (results & Hchat & _ & Hlen & Hin).
  by exists results.
Qed.

(** X15. After a successful ingestion, when the model loads and at least
    one chunk has a computed distance to the query that is finite and
    below [FLT_MAX], the first of the three results is a nearest chunk
    in the distance that the index computed in float32: a chunk text
    of the store whose computed distance is at most that of every chunk
    text of the store whose computed distance is a number. *)
Theorem first_result_is_nearest model dis api doc_ids st u query s t0 d0 :
  succeeded (ingest_docs model api doc_ids st).1 = true →
  VECTOR_STORE (ingest_docs model api doc_ids st).2 !! "default_user" = Some s →
  t0 ∈ texts s →
  dis (embed model query) (embed model t0) = Some d0 →
  (d0 < Faiss.FLT_MAX)%Q →
  ∃ t1 t2 t3 d1,
    (Live.chat_query model dis (Ok u) query
       (ingest_docs model api doc_ids st).2).1
    = Ok (JSONResponse
            [("query", JStr query);
             ("response", JStr (join (NL +:+ "---" +:+ NL) [t1; t2; t3]))] 200)
    ∧ t1 ∈ texts s
    ∧ dis (embed model query) (embed model t1) = Some d1
    ∧ ∀ t dt, t ∈ texts s →
              dis (embed model query) (embed model t) = Some dt →
              (d1 <= dt)%Q.
Proof.
  intros Hok Hs Ht0 Hd0 Hlt0.
  destruct (ingested_store_built model api doc_ids st Hok) as (chunks & Hne & Hs').
  rewrite Hs in Hs'. injection Hs' as ->. simpl in Ht0. simpl.
  destruct (live_chat_query_built model dis u query chunks _ Hne Hs)
    as (results & Hchat & Hresults & Hlen & _).
  destruct (float_nearest_first model dis chunks (embed model query) t0 d0
              Ht0 Hd0 Hlt0)
    as (i & t1 & d1 & rest & Hrow & Ht1 & Hd1 & _ & Hmin).
  rewrite Hrow in Hresults. cbn [map fst omapM] in Hresults.
  unfold mbind, outcome_bind in Hresults.
  rewrite (py_index_lookup chunks i t1 Ht1) in Hresults.
  destruct (omapM _ _) as [[|t2 [|t3 [|??]]]|]; try discriminate;
    injection Hresults as <-; try discriminate.
  exists t1, t2, t3, d1. split_and!; [by rewrite Hchat| |done..].
  by eapply list_elem_of_lookup_2.
Qed.

Lemma first_result_is_nearest_witness :
  ∃ t1 t2 t3 d1,
    (Live.chat_query toy_model FaissFloat.exact (Ok ()) "fox"
       (ingest_docs toy_model docs_service ["catdog"; "fox"] logged_in).2).1
    = Ok (JSONResponse
            [("query", JStr "fox");
             ("response", JStr (join (NL +:+ "---" +:+ NL) [t1; t2; t3]))] 200)
    ∧ t1 ∈ [cat_dog_chunk; "The quick brown fox."]
    ∧ FaissFloat.exact (embed toy_model "fox") (embed toy_model t1) = Some d1
    ∧ ∀ t dt, t ∈ [cat_dog_chunk; "The quick brown fox."] →
              FaissFloat.exact (embed toy_model "fox") (embed toy_model t)
              = Some dt →
              (d1 <= dt)%Q.
Proof.
  apply (first_result_is_nearest toy_model FaissFloat.exact docs_service
           ["catdog"; "fox"] logged_in () "fox"
           {| index := {| Faiss.d := 2;
                          Faiss.xb := map (embed toy_model)
                                        [cat_dog_chunk; "The quick brown fox."] |};
              texts := [cat_dog_chunk; "The quick brown fox."] |}
           "The quick brown fox."
           (Faiss.fvec_L2sqr (embed toy_model "fox")
              (embed toy_model "The quick brown fox."))).
  - vm_compute. reflexivity.
  - vm_compute. reflexivity.
  - simpl. right. left.
  - reflexivity.
  - vm_compute. reflexivity.
Defined.

(** X16. After a successful ingestion that stored three chunks or more,
    when the model loads and every chunk's computed distance to the
    query is finite and below [FLT_MAX], the three results are the texts
    at three different positions of the store, in ascending order of the
    distance that the index computed in float32, and every chunk at
    another position is at least as far, in that distance, as the third:
    nothing is returned twice by running off the end of the index. *)
Theorem three_distinct_results model dis api doc_ids st u query s :
  succeeded (ingest_docs model api doc_ids st).1 = true →
  VECTOR_STORE (ingest_docs model api doc_ids st).2 !! "default_user" = Some s →
  (3 ≤ length (texts s))%nat →
  (∀ t, t ∈ texts s →
        ∃ dt, dis (embed model query) (embed model t) = Some dt
              ∧ (dt < Faiss.FLT_MAX)%Q) →
  ∃ i1 i2 i3 t1 t2 t3 d1 d2 d3,
    texts s !! i1 = Some t1 ∧ texts s !! i2 = Some t2 ∧ texts s !! i3 = Some t3
    ∧ NoDup [i1; i2; i3]
    ∧ dis (embed model query) (embed model t1) = Some d1
    ∧ dis (embed model query) (embed model t2) = Some d2
    ∧ dis (embed model query) (embed model t3) = Some d3
    ∧ (d1 <= d2)%Q ∧ (d2 <= d3)%Q
    ∧ (∀ j t dt, texts s !! j = Some t →
                 dis (embed model query) (embed model t) = Some dt →
                 j ∈ [i1; i2; i3] ∨ (d3 <= dt)%Q)
    ∧ (Live.chat_query model dis (Ok u) query
         (ingest_docs model api doc_ids st).2).1
      = Ok (JSONResponse
              [("query", JStr query);
               ("response", JStr (join (NL +:+ "---" +:+ NL) [t1; t2; t3]))] 200).
Proof.
  intros Hok Hs Hlen Hall.
  destruct (ingested_store_built model api doc_ids st Hok) as (chunks & Hne & Hs').
  rewrite Hs in Hs'. injection Hs' as ->. simpl in Hlen, Hall.
  destruct (live_chat_query_built model dis u query chunks _ Hne Hs)
    as (results & Hchat & Hresults & _ & _).
  destruct (float_nearest_three model dis chunks (embed model query) Hlen Hall)
    as (i1 & i2 & i3 & t1 & t2 & t3 & d1 & d2 & d3 & Hrow & Ht1 & Ht2 & Ht3
        & Hnodup & Hd1 & Hd2 & Hd3 & H12 & H23 & Hrest).
  rewrite Hrow in Hresults. cbn [map fst omapM] in Hresults.
  unfold mbind, outcome_bind in Hresults.
  rewrite (py_index_lookup chunks i1 t1 Ht1), (py_index_lookup chunks i2 t2 Ht2),
    (py_index_lookup chunks i3 t3 Ht3) in Hresults.
  injection Hresults as <-.
  exists i1, i2, i3, t1, t2, t3, d1, d2, d3. simpl. split_and!; try done.
  by rewrite Hchat.
Qed.

Lemma three_distinct_results_witness :
  ∃ i1 i2 i3 t1 t2 t3 d1 d2 d3,
    [cat_dog_chunk; "The quick brown fox."; cat_dog_chunk] !! i1 = Some t1
    ∧ [cat_dog_chunk; "The quick brown fox."; cat_dog_chunk] !! i2 = Some t2
    ∧ [cat_dog_chunk; "The quick brown fox."; cat_dog_chunk] !! i3 = Some t3
    ∧ NoDup [i1; i2; i3]
    ∧ FaissFloat.exact (embed toy_model "fox") (embed toy_model t1) = Some d1
    ∧ FaissFloat.exact (embed toy_model "fox") (embed toy_model t2) = Some d2
    ∧ FaissFloat.exact (embed toy_model "fox") (embed toy_model t3) = Some d3
    ∧ (d1 <= d2)%Q ∧ (d2 <= d3)%Q
    ∧ (∀ j t dt,
         [cat_dog_chunk; "The quick brown fox."; cat_dog_chunk] !! j = Some t →
         FaissFloat.exact (embed toy_model "fox") (embed toy_model t) = Some dt →
         j ∈ [i1; i2; i3] ∨ (d3 <= dt)%Q)
    ∧ (Live.chat_query toy_model FaissFloat.exact (Ok ()) "fox"
         (ingest_docs toy_model docs_service ["catdog"; "fox"; "catdog"]
            logged_in).2).1
      = Ok (JSONResponse
              [("query", JStr "fox");
               ("response", JStr (join (NL +:+ "---" +:+ NL) [t1; t2; t3]))] 200).
Proof.
  apply (three_distinct_results toy_model FaissFloat.exact docs_service
           ["catdog"; "fox"; "catdog"] logged_in () "fox"
           {| index := {| Faiss.d := 2;
                          Faiss.xb := map (embed toy_model)
                                        [cat_dog_chunk; "The quick brown fox.";
                                         cat_dog_chunk] |};
              texts := [cat_dog_chunk; "The quick brown fox."; cat_dog_chunk] |}).
  - vm_compute. reflexivity.
  - vm_compute. reflexivity.
  - simpl. lia.
  - intros t Ht. eexists. split; [reflexivity|]. simpl in Ht.
    repeat (apply elem_of_cons in Ht as [->|Ht]; [by vm_compute|]).
    by apply elem_of_nil in Ht.
Defined.

(** ** Short documents and blank documents *)

Lemma len_join_snoc sep l d :
  len (join sep (l ++ [d]))
  = len (join sep l) + len d
    + (if 0 <? Z.of_nat (length l) then len sep else 0).
Proof.
  rewrite join_snoc. destruct l as [|u l].
  - change (join sep []) with "". rewrite len_empty. simpl. lia.
  - rewrite !len_append. cbn [length]. bool_to_Z; lia.
Qed.

Lemma len_join_app_l sep l l' : len (join sep l) <= len (join sep (l ++ l')).
Proof.
  induction l' as [|d l' IH] using rev_ind; [by rewrite app_nil_r|].
  rewrite app_assoc, len_join_snoc.
  pose proof (len_nonneg d). pose proof (len_nonneg sep).
  destruct (0 <? _); lia.
Qed.

Lemma len_join_filter sep l :
  len (join sep (filter (λ s, s ≠ "") l)) <= len (join sep l).
Proof.
  induction l as [|s l IH]; [done|].
  assert (len (join sep l) <= len (join sep (s :: l))) as Hl.
  { destruct l as [|s' l]; [apply len_nonneg|].
    rewrite (join_cons sep s (s' :: l)), !len_append by done.
    pose proof (len_nonneg s). pose proof (len_nonneg sep). lia. }
  rewrite filter_cons. case_decide; [|by etrans].
  destruct l as [|s' l]; [done|].
  revert IH. generalize (filter (λ s, s ≠ "") (s' :: l)). intros [|f fs] IH.
  - change (join sep [s]) with s. apply len_join_cons.
  - rewrite (join_cons sep s (f :: fs)), (join_cons sep s (s' :: l)) by done.
    rewrite !len_append. lia.
Qed.

Lemma remove_whitespace_empty_lstrip s :
  remove_whitespace s = "" → lstrip s = "".
Proof.
  induction s as [|c s IH]; simpl; [done|].
  destruct (isspace c); [done|discriminate].
Qed.

Lemma remove_whitespace_empty_strip s :
  remove_whitespace s = "" → strip s = "".
Proof.
  intros Hs. unfold strip. apply remove_whitespace_empty_lstrip.
  by rewrite remove_whitespace_rstrip.
Qed.

Lemma remove_whitespace_join_empty l :
  remove_whitespace (join "" l) = "" ↔ Forall (λ u, remove_whitespace u = "") l.
Proof.
  induction l as [|u l IH]; [by split|].
  rewrite join_empty_cons, remove_whitespace_append, Forall_cons, <- IH.
  split.
  - by intros ?%append_eq_empty.
  - by intros [-> ->].
Qed.

Section splitter_more.
Import LangChain.
Context (self : CharacterTextSplitter) (sep : string).

(** While everything fits the size the loop only appends. *)
Lemma merge_loop_fits splits docs current_doc :
  len (join sep (current_doc ++ splits)) <= chunk_size self →
  merge_loop self sep splits (docs, current_doc, len (join sep current_doc))
  = Ok (docs, current_doc ++ splits, len (join sep (current_doc ++ splits))).
Proof.
  revert current_doc. induction splits as [|d splits IH]; intros current_doc Hfit.
  - by rewrite app_nil_r.
  - cbn [merge_loop]. unfold merge_step.
    pose proof (len_join_app_l sep (current_doc ++ [d]) splits) as Hd.
    rewrite <- app_assoc in Hd. cbn [app] in Hd.
    pose proof (len_join_snoc sep current_doc d) as Hsnoc.
    destruct (_ >? chunk_size self) eqn:Hover.
    { bool_to_Z; lia. }
    unfold mbind, outcome_bind.
    replace (len (join sep current_doc) + len d
             + (if 1 <? Z.of_nat (length (current_doc ++ [d])) then len sep else 0))
      with (len (join sep (current_doc ++ [d]))).
    + rewrite IH; rewrite <- app_assoc; [done|]. exact Hfit.
    + rewrite Hsnoc, length_app. cbn [length]. bool_to_Z; lia.
Qed.

(** A [current_doc] of blank splits joins to nothing. *)
Lemma join_docs_blank current_doc :
  remove_whitespace sep = "" →
  Forall (λ u, remove_whitespace u = "") current_doc →
  join_docs current_doc sep = None.
Proof.
  intros Hsep Hblank. unfold join_docs. simpl.
  rewrite remove_whitespace_empty_strip; [done|].
  rewrite remove_whitespace_join by done.
  by apply remove_whitespace_join_empty.
Qed.

Lemma merge_step_blank docs current_doc total d st' :
  join_docs current_doc sep = None →
  merge_step self sep (docs, current_doc, total) d = Ok st' →
  st'.1.1 = docs ∧ ∃ k, current_doc ++ [d] = k ++ st'.1.2.
Proof.
  intros Hnone. unfold merge_step. rewrite Hnone.
  destruct (_ >? chunk_size self);
    [destruct (0 <? Z.of_nat (length current_doc))|].
  - destruct (pop_front self (len sep) (len d) current_doc total)
      as [[rest total']|] eqn:Hpop; [|done].
    unfold mbind, outcome_bind. intros [= <-]. simpl. split; [done|].
    assert (∀ l t r t', pop_front self (len sep) (len d) l t = Ok (r, t') →
                        r `suffix_of` l) as Hsuffix.
    { induction l as [|d0 l IHl]; intros t r t'; cbn [pop_front].
      - destruct (_ || _); [done|]. by intros [= <- _].
      - destruct (_ || _).
        + intros H. apply suffix_cons_r. by eapply IHl.
        + by intros [= <- _]. }
    destruct (Hsuffix _ _ _ _ Hpop) as [k ->].
    exists k. by rewrite app_assoc.
  - unfold mbind, outcome_bind. intros [= <-]. simpl. split; [done|]. by exists [].
  - unfold mbind, outcome_bind. intros [= <-]. simpl. split; [done|]. by exists [].
Qed.

Lemma merge_loop_blank splits docs current_doc total st' :
  remove_whitespace sep = "" →
  Forall (λ u, remove_whitespace u = "") current_doc →
  Forall (λ u, remove_whitespace u = "") splits →
  merge_loop self sep splits (docs, current_doc, total) = Ok st' →
  st'.1.1 = docs ∧ Forall (λ u, remove_whitespace u = "") st'.1.2.
Proof.
  intros Hsep Hcur Hsplits. revert current_doc total Hcur.
  induction Hsplits as [|d splits Hd _ IH]; intros current_doc total Hcur.
  - by intros [= <-].
  - cbn [merge_loop]. unfold mbind, outcome_bind.
    destruct (merge_step self sep (docs, current_doc, total) d)
      as [[[docs1 cur1] total1]|] eqn:Hstep; [|done].
    apply merge_step_blank in Hstep as [Hdocs [k Hk]];
      [|by apply join_docs_blank].
    simpl in Hdocs, Hk. subst docs1. apply IH.
    assert (Forall (λ u, remove_whitespace u = "") (current_doc ++ [d])) as Hall
      by (apply Forall_app; split; [done|by constructor]).
    rewrite Hk in Hall. by apply Forall_app in Hall as [_ ?].
Qed.

End splitter_more.

(** X13. A text of at most 500 characters is never cut: it gives one chunk,
    its non-empty lines joined by single newlines and stripped, or no
    chunk when nothing is left after the strip. *)
Theorem short_text_is_one_chunk text :
  len text <= 500 →
  LangChain.split_text splitter text
  = Ok (if decide (strip (join NL (filter (λ s, s ≠ "") (split nl text))) = "")
        then []
        else [strip (join NL (filter (λ s, s ≠ "") (split nl text)))]).
Proof.
  intros Hlen.
  unfold LangChain.split_text, LangChain.merge_splits,
    LangChain.split_text_with_regex.
  change (String (LangChain.separator splitter) "") with NL.
  change (LangChain.separator splitter) with nl.
  rewrite (merge_loop_fits splitter NL _ [] []).
  - unfold mbind, outcome_bind, LangChain.join_docs. simpl.
    by destruct (decide _).
  - simpl.
    pose proof (len_join_filter NL (split nl text)) as Hfilter.
    unfold NL in Hfilter at 2. rewrite join_split in Hfilter. lia.
Qed.

Lemma short_text_is_one_chunk_witness :
  LangChain.split_text splitter cat_dog
  = Ok (if decide (strip (join NL (filter (λ s, s ≠ "") (split nl cat_dog))) = "")
        then []
        else [strip (join NL (filter (λ s, s ≠ "") (split nl cat_dog)))]).
Proof.
  apply (short_text_is_one_chunk cat_dog). vm_compute. discriminate.
Defined.

(** A text without a character that is not whitespace gives no chunk. *)
Lemma split_text_blank text :
  remove_whitespace text = "" → LangChain.split_text splitter text = Ok [].
Proof.
  intros Hblank.
  assert (Forall (λ u, remove_whitespace u = "")
            (LangChain.split_text_with_regex text nl)) as Hsplits.
  { apply remove_whitespace_join_empty.
    unfold LangChain.split_text_with_regex.
    by rewrite join_empty_filter, remove_whitespace_split. }
  destruct (split_text_spec text) as (chunks & _ & Hok & _).
  unfold LangChain.split_text, LangChain.merge_splits in *.
  change (String (LangChain.separator splitter) "") with NL in *.
  change (LangChain.separator splitter) with nl in *.
  unfold mbind, outcome_bind in *.
  destruct (LangChain.merge_loop splitter NL _ _) as [[[docs cur] total]|] eqn:Hloop;
    [|done].
  apply (merge_loop_blank splitter NL) in Hloop as [Hdocs Hcur]; [|done..].
  simpl in Hdocs, Hcur. subst docs.
  by rewrite (join_docs_blank NL cur).
Qed.

(** X12. Documents without text are not ingested.  When every requested
    document is fetched and read without error but has no character
    that is not whitespace (as the body of an empty Docs document, or an
    empty request), there is no chunk, [embeddings.shape[1]] raises
    [IndexError], and the state is as before: no empty index is ever
    stored. *)
Theorem blank_documents_raise model api doc_ids st creds :
  USER_CREDENTIALS st !! "default_user" = Some creds →
  build api = Ok () →
  Forall (λ doc_id, ∃ doc text, documents_get api doc_id = Ok doc
                                ∧ extract_text doc = Ok text
                                ∧ remove_whitespace text = "") doc_ids →
  ingest_docs model api doc_ids st = (Raise IndexError, st).
Proof.
  intros Hcreds Hbuild Hblank.
  assert (∃ all_text,
             omapM (λ doc_id, doc ← documents_get api doc_id; extract_text doc)
               doc_ids = Ok all_text
             ∧ Forall (λ text, remove_whitespace text = "") all_text)
    as (all_text & Hfetch & Htexts).
  { destruct (omapM_results
                (λ doc_id, doc ← documents_get api doc_id; extract_text doc)
                (λ text, remove_whitespace text = "") doc_ids)
      as (all_text & ? & _ & ?); [|by exists all_text].
    eapply Forall_impl; [exact Hblank|].
    intros doc_id (doc & text & Hget & Hextract & Htext).
    exists text. unfold mbind, outcome_bind. by rewrite Hget. }
  assert (omapM (LangChain.split_text splitter) all_text
          = Ok (map (λ _, []) all_text)) as Hsplit.
  { apply omapM_total. eapply Forall_impl; [exact Htexts|].
    intros text. apply split_text_blank. }
  unfold ingest_docs, get_credentials_for_user. unfold_handler.
  rewrite Hcreds, Hbuild, Hfetch, Hsplit. simpl.
  replace (concat (map (λ _, []) all_text)) with (@nil string); [done|].
  clear. by induction all_text.
Qed.

Lemma blank_documents_raise_witness :
  ingest_docs toy_model
    {| build := Ok ();
       documents_get := λ _, Ok (gdoc [[NL]]);
       files_list := Raise HttpError |}
    ["empty"; "blank"] logged_in
  = (Raise IndexError, logged_in).
Proof.
  apply (blank_documents_raise toy_model _ _ logged_in some_credentials).
  - reflexivity.
  - reflexivity.
  - repeat constructor; eexists _, _; split_and!; reflexivity.
Defined.

(** X17. After a successful ingestion a query sees the new documents only:
    each of the three results is a chunk of one of the documents of
    that request, whatever store the session had before. *)
Theorem query_sees_only_last_ingestion model api doc_ids st query :
  succeeded (ingest_docs model api doc_ids st).1 = true →
  ∃ results,
    (chat_query model query (ingest_docs model api doc_ids st).2).1
    = Ok (JSONResponse
            [("query", JStr query);
             ("response", JStr (join (NL +:+ "---" +:+ NL) results))] 200)
    ∧ length results = 3%nat
    ∧ Forall (λ t, ∃ doc_id doc text chunks,
                     doc_id ∈ doc_ids
                     ∧ documents_get api doc_id = Ok doc
                     ∧ extract_text doc = Ok text
                     ∧ LangChain.split_text splitter text = Ok chunks
                     ∧ t ∈ chunks) results.
Proof.
  intros Hok.
  destruct (ingest_docs_succeeded model api doc_ids st Hok)
    as (creds & all_text & pieces & Hcreds & Hbuild & Hfetch & Hsplit & Hne).
  rewrite (ingest_docs_success model api doc_ids st creds all_text pieces)
    by done.
  simpl.
  destruct (chat_query_built model query (concat pieces)
              {| USER_CREDENTIALS := USER_CREDENTIALS st;
                 VECTOR_STORE :=
                   <["default_user" :=
                       {| index := {| Faiss.d := dimension model;
                                      Faiss.xb := map (embed model) (concat pieces) |};
                          texts := concat pieces |}]> (VECTOR_STORE st) |})
    as (results & Hchat & _ & Hlen & Hin); [done|apply lookup_insert_eq|].
  exists results. split_and!; [by rewrite Hchat|done|].
  eapply Forall_impl; [exact Hin|]. intros t Ht.
  apply list_elem_of_In, in_concat in Ht as (chunks & Hchunks & Ht).
  apply list_elem_of_In, list_elem_of_lookup in Hchunks as [j Hj].
  apply omapM_Ok in Hfetch, Hsplit.
  destruct (Forall2_lookup_r _ _ _ _ _ Hsplit Hj) as (text & Htext & Hcut).
  destruct (Forall2_lookup_r _ _ _ _ _ Hfetch Htext) as (doc_id & Hid & Hget).
  simpl in Hget. unfold mbind, outcome_bind in Hget.
  destruct (documents_get api doc_id) as [doc|] eqn:Hdoc; [|done].
  exists doc_id, doc, text, chunks.
  split_and!; [by eapply list_elem_of_lookup_2|done..|by apply list_elem_of_In].
Qed.

Lemma query_sees_only_last_ingestion_witness :
  ∃ results,
    (chat_query toy_model "cat"
       (ingest_docs toy_model docs_service ["fox"]
          (ingest_docs toy_model docs_service ["catdog"] logged_in).2).2).1
    = Ok (JSONResponse
            [("query", JStr "cat");
             ("response", JStr (join (NL +:+ "---" +:+ NL) results))] 200)
    ∧ length results = 3%nat
    ∧ Forall (λ t, ∃ doc_id doc text chunks,
                     doc_id ∈ ["fox"]
                     ∧ documents_get docs_service doc_id = Ok doc
                     ∧ extract_text doc = Ok text
                     ∧ LangChain.split_text splitter text = Ok chunks
                     ∧ t ∈ chunks) results.
Proof.
  apply (query_sees_only_last_ingestion toy_model docs_service ["fox"]).
  vm_compute. reflexivity.
Defined.
